(** * asyncio-from-scratch: the event loop, futures and [run] of [src/async.py]

    A shallow embedding of the scheduler.  Python objects that are mutated
    through references (the process-wide [current_loop], every [Future]) live
    in an explicit [World]; a method [obj.m(args)] becomes a function taking
    the reference [self] and the world and returning the new world.

    Python callables stored in a [Callback] are arbitrary: the embedding is
    parametric in the type [Fn] of callables and in the function [call] that
    gives the effect of invoking one.  The last part of the file instantiates
    both with the callables the source itself builds ([coro.send] and
    [future.set_result]) and with the generator [sleep]. *)

From Stdlib Require Import ZArith Lia Sorting.Sorted.
From stdpp Require Import base list.

Local Open Scope Z_scope.

(** ** Values *)

(** Python values that flow through the scheduler: [None], a plain integer
    and a reference to a [Future] object (its index in the world's store). *)
Inductive value : Type :=
  | VNone
  | VInt (n : Z)
  | VFuture (ref : nat).

(** [class FutureStatus(Enum)] *)
Inductive FutureStatus : Type := DONE | SCHEDULED | CANCELLED.

#[global] Instance FutureStatus_eq_dec : EqDecision FutureStatus.
Proof. solve_decision. Defined.

(** What advancing a generator by one step gives: it suspends on a [yield]
    or it finishes with a [return]. *)
Inductive GenStep : Type :=
  | Yielded (v : value)
  | Returned (v : value).

(** What calling a callable gives: a returned value, the completion signal
    [StopIteration] carrying a value, or any other exception. *)
Inductive Outcome : Type :=
  | Return (v : value)
  | StopIteration (v : value)
  | Raise.

(** What [run] hands back to its caller: Python's [None] or a list. *)
Inductive retval : Type :=
  | RNone
  | RList (l : list value).

(** [timedelta.seconds] of a difference of two timestamps given in
    microseconds: the seconds component of the normalised
    (days, seconds, microseconds) triple, between 0 and 86399. *)
Definition timedelta_seconds (d : Z) : Z := (d mod 86400000000) / 1000000.

Section Runtime.

(** Python callables, and the part of the interpreter state that is not
    the loop or a future (generator frames, user objects). *)
Variable Fn : Type.
Variable Heap : Type.

(** Time a read of the clock takes, in microseconds; the clock never runs
    backwards. *)
Variable tick : N.

(** [class Callback(NamedTuple)] *)
Record Callback : Type := mkCallback { fn : Fn; args : list value }.

(** [class Event]: both operations of [Loop] that build an Event give it a
    timestamp, so [when] is a timestamp (microseconds, counted from
    [datetime.min]). *)
Record Event : Type := mkEvent { callback : Callback; when : Z }.

(** [class Loop] *)
Record Loop : Type := mkLoop { events : list Event }.

(** [class Future]; [_result] is the attribute [set_result] creates, absent
    until then. *)
Record Future : Type := mkFuture {
  callbacks : list Callback;
  status : FutureStatus;
  _result : option value
}.

(** The mutable state of the process: the singleton [current_loop], the
    store of Future objects (a reference is an index), the wall clock and
    the rest of the heap. *)
Record World : Type := mkWorld {
  current_loop : Loop;
  futures : list Future;
  clock : Z;
  heap : Heap
}.

Definition set_events (es : list Event) (w : World) : World :=
  mkWorld (mkLoop es) (futures w) (clock w) (heap w).

Definition set_futures (fs : list Future) (w : World) : World :=
  mkWorld (current_loop w) fs (clock w) (heap w).

Definition set_clock (t : Z) (w : World) : World :=
  mkWorld (current_loop w) (futures w) t (heap w).

Definition set_heap (h : Heap) (w : World) : World :=
  mkWorld (current_loop w) (futures w) (clock w) h.

(** The registry of pending events of the singleton loop. *)
Definition registry (w : World) : list Event := events (current_loop w).

(** [datetime.now()] *)
Definition datetime_now (w : World) : Z * World :=
  (clock w, set_clock (clock w + Z.of_N tick) w).

(** [time.sleep(d)], [d] in microseconds *)
Definition time_sleep (d : Z) (w : World) : World :=
  set_clock (clock w + d) w.

(** ** Loop *)

(** [self.events.append(e)] on [current_loop] *)
Definition events_append (e : Event) (w : World) : World :=
  set_events (registry w ++ [e]) w.

(** [Loop.call_soon] *)
Definition call_soon (c : Callback) (w : World) : World :=
  let '(now, w1) := datetime_now w in
  events_append (mkEvent c now) w1.

(** [Loop.call_later] *)
Definition call_later (c : Callback) (when_ : Z) (w : World) : World :=
  events_append (mkEvent c when_) w.

(** ** Future *)

(** Assignment to attributes of the Future object behind [self]. *)
Definition update_future (self : nat) (g : Future -> Future) (w : World) : World :=
  set_futures (alter g self (futures w)) w.

Definition assign__result (v : value) (f : Future) : Future :=
  mkFuture (callbacks f) (status f) (Some v).

Definition assign_status (s : FutureStatus) (f : Future) : Future :=
  mkFuture (callbacks f) s (_result f).

Definition append_callback (c : Callback) (f : Future) : Future :=
  mkFuture (callbacks f ++ [c]) (status f) (_result f).

(** [Future.result]: [getattr(self, "_result", None)] *)
Definition result (self : Future) : value :=
  match _result self with
  | Some v => v
  | None => VNone
  end.

(** [Future.done] *)
Definition done (self : Future) : bool :=
  negb (bool_decide (status self = SCHEDULED)).

(** [Future._schedule_callbacks] *)
Definition _schedule_callbacks (self : nat) (w : World) : World :=
  match futures w !! self with
  | Some f => foldl (fun w' c => call_soon c w') w (callbacks f)
  | None => w
  end.

(** [Future.set_result] *)
Definition set_result (self : nat) (v : value) (w : World) : World :=
  let w1 := update_future self (assign__result v) w in
  let w2 := update_future self (assign_status DONE) w1 in
  _schedule_callbacks self w2.

(** [Future.cancel] *)
Definition cancel (self : nat) (w : World) : World :=
  update_future self (assign_status CANCELLED) w.

(** [Future.add_done_callback] *)
Definition add_done_callback (self : nat) (c : Callback) (w : World) : World :=
  update_future self (append_callback c) w.

(** [Future.__iter__] (also [__await__]): the generator's first step. *)
Definition __iter__ (self : nat) (w : World) : GenStep :=
  match futures w !! self with
  | Some f =>
      match status f with
      | DONE => Returned (result f)
      | CANCELLED => Returned VNone
      | SCHEDULED => Yielded (VFuture self)
      end
  | None => Returned VNone
  end.

(** Resuming that generator after its [yield self]: the body ends. *)
Definition __iter___resume : GenStep := Returned VNone.

(** [create_future] *)
Definition create_future (w : World) : nat * World :=
  (length (futures w), set_futures (futures w ++ [mkFuture [] SCHEDULED None]) w).

(** ** run *)

(** Invoking a callable with its arguments in a world. *)
Variable call : Fn -> list value -> World -> Outcome * World.

(** Generator objects and their bound method [coro.send]. *)
Variable Generator : Type.
Variable send : Generator -> Fn.

(** [list.sort(key=lambda e: e.when)]: Python's sort is stable, and a stable
    sort has one possible result; it is computed here by insertion, an
    element going in front of the first one whose key is not smaller. *)
Fixpoint insert_by_when (e : Event) (l : list Event) : list Event :=
  match l with
  | [] => [e]
  | x :: r => if when e <=? when x then e :: x :: r else x :: insert_by_when e r
  end.

Definition sort_by_when (l : list Event) : list Event :=
  foldr insert_by_when [] l.

(** The world in which the selected callback is invoked: the registry has
    been sorted in place and [now = datetime.now()] has been read. *)
Definition at_call (w : World) : World :=
  (datetime_now (set_events (sort_by_when (registry w)) w)).2.

(** Lines 104-109: what [run] does with the value a step produced. *)
Definition settle (current_event : Event) (res_or_fut : value)
    (w : World) (results : list value) : World * list value :=
  match res_or_fut with
  | VFuture fut =>
      (add_done_callback fut
         (mkCallback (fn (callback current_event)) (args (callback current_event))) w,
       results)
  | VNone => (w, results ++ [res_or_fut])
  | VInt _ => (w, results)
  end.

(** One pass through the body of the [while] loop (lines 94-116): either the
    callback of the first event was invoked and the event deleted, or the
    process slept, or an exception escaped.  The [print] calls are taken to
    succeed and to write to the terminal only (formatting an event for the
    one on line 97 raises ValueError if it shows an int of more than 4300
    digits; such values are outside what is stated here); the one on line
    114 reads the clock for its argument, as does the [time.sleep] call that
    follows it. *)
Inductive Step : Type :=
  | Executed (e : Event) (w : World) (results : list value)
  | Blocked (w : World)
  | Aborted (w : World).

Definition loop_body (w : World) (results : list value) : Step :=
  let w1 := set_events (sort_by_when (registry w)) w in
  let '(now, w2) := datetime_now w1 in
  match registry w2 with
  | [] => Aborted w2
  | current_event :: _ =>
      if when current_event <=? now then
        match call (fn (callback current_event)) (args (callback current_event)) w2 with
        | (Raise, w3) => Aborted w3
        | (Return res_or_fut, w3) | (StopIteration res_or_fut, w3) =>
            let '(w4, results') := settle current_event res_or_fut w3 results in
            match registry w4 with
            | [] => Aborted w4
            | _ :: rest => Executed current_event (set_events rest w4) results'
            end
        end
      else
        let '(_, w3) := datetime_now w2 in
        let '(now', w4) := datetime_now w3 in
        Blocked (time_sleep (timedelta_seconds (when current_event - now') * 1000000 + 500000) w4)
  end.

(** How a call of [run] ends: it returns, an exception escapes it, or it is
    still looping after the given number of passes. *)
Inductive Completion : Type :=
  | Completed (r : retval)
  | Propagated
  | Looping.

(** A call of [run] as observed from outside: how it ended, the events whose
    callbacks were invoked, in order, and the world it left. *)
Record Run : Type := mkRun {
  outcome : Completion;
  executed : list Event;
  final : World
}.

(** The [while len(current_loop.events)] loop, at most [fuel] passes. *)
Fixpoint run_loop (fuel : nat) (w : World) (results : list value) : Run :=
  match registry w with
  | [] => mkRun (Completed (RList results)) [] w
  | _ :: _ =>
      match fuel with
      | O => mkRun Looping [] w
      | S n =>
          match loop_body w results with
          | Executed e w' results' =>
              let r := run_loop n w' results' in
              mkRun (outcome r) (e :: executed r) (final r)
          | Blocked w' => run_loop n w' results
          | Aborted w' => mkRun Propagated [] w'
          end
      end
  end.

(** The [for coro in coros] loop of [run]. *)
Definition seed (coros : list Generator) (w : World) : World :=
  foldl (fun w' coro => call_soon (mkCallback (send coro) [VNone]) w') w coros.

(** [run]: the body of [def run], on the tuple of its arguments *)
Definition run (fuel : nat) (coros : list Generator) (w : World) : Run :=
  if (length coros <=? 0)%nat then mkRun (Completed RNone) [] w
  else run_loop fuel (seed coros w) [].

(** *** Observations of an execution used to state the ordering property *)

(** The events appended to the registry by the callbacks invoked during the
    first [fuel] passes, in the order they were appended: a pass that invokes
    a callback leaves the registry one event shorter, plus what was added. *)
Fixpoint enqueued (fuel : nat) (w : World) (results : list value) : list Event :=
  match registry w, fuel with
  | _ :: _, S n =>
      match loop_body w results with
      | Executed e w' results' =>
          drop (length (registry w) - 1) (registry w') ++ enqueued n w' results'
      | Blocked w' => enqueued n w' results
      | Aborted _ => []
      end
  | _, _ => []
  end.

(** A callback invocation only appends to the registry: what was pending
    when it started is still there, in the same order, when it ends. *)
Definition appends_only (f : Fn) (a : list value) (w : World) : Prop :=
  let w' := (call f a w).2 in
  registry w' = registry w ++ drop (length (registry w)) (registry w').

(** Every callback invoked during the first [fuel] passes only appends to
    the registry. *)
Fixpoint appending (fuel : nat) (w : World) (results : list value) : Prop :=
  match registry w, fuel with
  | _ :: _, S n =>
      match loop_body w results with
      | Executed e w' results' =>
          appends_only (fn (callback e)) (args (callback e)) (at_call w) /\
          appending n w' results'
      | Blocked w' => appending n w' results
      | Aborted _ => True
      end
  | _, _ => True
  end.

(** A callback invocation schedules forward: it only appends to the registry,
    and nothing it appends is due before the time it was invoked at. *)
Definition schedules_forward (f : Fn) (a : list value) (w : World) : Prop :=
  let w' := (call f a w).2 in
  registry w' = registry w ++ drop (length (registry w)) (registry w') /\
  Forall (fun e => clock w <= when e) (drop (length (registry w)) (registry w')).

(** Every callback invoked during the first [fuel] passes schedules forward. *)
Fixpoint punctual (fuel : nat) (w : World) (results : list value) : Prop :=
  match registry w, fuel with
  | _ :: _, S n =>
      match loop_body w results with
      | Executed e w' results' =>
          schedules_forward (fn (callback e)) (args (callback e)) (at_call w) /\
          punctual n w' results'
      | Blocked w' => punctual n w' results
      | Aborted _ => True
      end
  | _, _ => True
  end.

End Runtime.

Arguments mkCallback {Fn} fn args.
Arguments fn {Fn} c.
Arguments args {Fn} c.
Arguments mkEvent {Fn} callback when.
Arguments callback {Fn} e.
Arguments when {Fn} e.
Arguments mkLoop {Fn} events.
Arguments events {Fn} l.
Arguments mkFuture {Fn} callbacks status _result.
Arguments callbacks {Fn} f.
Arguments status {Fn} f.
Arguments _result {Fn} f.
Arguments mkWorld {Fn Heap} current_loop futures clock heap.
Arguments current_loop {Fn Heap} w.
Arguments futures {Fn Heap} w.
Arguments clock {Fn Heap} w.
Arguments heap {Fn Heap} w.
Arguments set_events {Fn Heap} es w.
Arguments set_futures {Fn Heap} fs w.
Arguments set_clock {Fn Heap} t w.
Arguments set_heap {Fn Heap} h w.
Arguments registry {Fn Heap} w.
Arguments datetime_now {Fn Heap} tick w.
Arguments time_sleep {Fn Heap} d w.
Arguments events_append {Fn Heap} e w.
Arguments call_soon {Fn Heap} tick c w.
Arguments call_later {Fn Heap} c when_ w.
Arguments update_future {Fn Heap} self g w.
Arguments assign__result {Fn} v f.
Arguments assign_status {Fn} s f.
Arguments append_callback {Fn} c f.
Arguments result {Fn} self.
Arguments done {Fn} self.
Arguments _schedule_callbacks {Fn Heap} tick self w.
Arguments set_result {Fn Heap} tick self v w.
Arguments cancel {Fn Heap} self w.
Arguments add_done_callback {Fn Heap} self c w.
Arguments __iter__ {Fn Heap} self w.
Arguments create_future {Fn Heap} w.
Arguments insert_by_when {Fn} e l.
Arguments sort_by_when {Fn} l.
Arguments at_call {Fn Heap} tick w.
Arguments settle {Fn Heap} current_event res_or_fut w results.
Arguments Executed {Fn Heap} e w results.
Arguments Blocked {Fn Heap} w.
Arguments Aborted {Fn Heap} w.
Arguments loop_body {Fn Heap} tick call w results.
Arguments mkRun {Fn Heap} outcome executed final.
Arguments outcome {Fn Heap} r.
Arguments executed {Fn Heap} r.
Arguments final {Fn Heap} r.
Arguments run_loop {Fn Heap} tick call fuel w results.
Arguments seed {Fn Heap} tick {Generator} send coros w.
Arguments run {Fn Heap} tick call {Generator} send fuel coros w.
Arguments enqueued {Fn Heap} tick call fuel w results.
Arguments schedules_forward {Fn Heap} call f a w.
Arguments punctual {Fn Heap} tick call fuel w results.
Arguments appends_only {Fn Heap} call f a w.
Arguments appending {Fn Heap} tick call fuel w results.

(** ** The callables and generators of the source *)

(** The callables [run] and [sleep] put in a Callback: the bound methods
    [coro.send] of a generator object and [future.set_result] of a Future,
    each identified by the reference of its object. *)
Inductive PyFn : Type :=
  | BoundSend (coro : nat)
  | BoundSetResult (future : nat).

(** The frame of a generator object: where its body is suspended.
    [sleep(delay, result)] is suspended at its entry until first advanced,
    then inside [yield from future].  A generator whose body is [yield v]
    for each [v] of [vs] is at its entry ([YielderEntry vs]) until first
    advanced, then at one of its [yield]s with [vs] still to come
    ([Yielder vs]). *)
Inductive Frame : Type :=
  | SleepEntry (delay : Z) (result_ : value)
  | SleepAwait (future : nat)
  | YielderEntry (vs : list value)
  | Yielder (vs : list value)
  | Exhausted.

(** A generator that has not been advanced yet. *)
Definition just_started (fr : option Frame) : bool :=
  match fr with
  | Some (SleepEntry _ _) | Some (YielderEntry _) => true
  | _ => false
  end.

(** Timestamps count microseconds from [datetime.min], so the values a
    [datetime] can hold are those from 0 to [datetime_max]
    (9999-12-31 23:59:59.999999, the last microsecond of day 3652059). *)
Definition datetime_max : Z := 3652059 * 86400000000 - 1.

Definition datetime_ok (t : Z) : bool := (0 <=? t) && (t <=? datetime_max).

(** [timedelta(seconds=s)] exists when its days field, [s // 86400], has
    magnitude at most 999999999. *)
Definition timedelta_ok (seconds : Z) : bool :=
  (-999999999 <=? seconds / 86400) && (seconds / 86400 <=? 999999999).

#[global] Instance value_eq_dec : EqDecision value.
Proof. solve_decision. Defined.

#[global] Instance PyFn_eq_dec : EqDecision PyFn.
Proof. solve_decision. Defined.

#[global] Instance Callback_eq_dec : EqDecision (Callback PyFn).
Proof. solve_decision. Defined.

Definition PyWorld : Type := World PyFn (list Frame).

Definition set_frame (coro : nat) (fr : Frame) (w : PyWorld) : PyWorld :=
  set_heap (<[coro := fr]> (heap w)) w.

(** [future.result] read through a reference. *)
Definition result_of (future : nat) (w : PyWorld) : value :=
  match futures w !! future with
  | Some f => result f
  | None => VNone
  end.

(** Calling the generator function [sleep] creates the generator object; its
    body does not run yet.  [delay] is in whole seconds. *)
Definition sleep (delay : Z) (result_ : value) (w : PyWorld) : nat * PyWorld :=
  (length (heap w), set_heap (heap w ++ [SleepEntry delay result_]) w).

(** Calling a generator function that yields the values [vs] in turn. *)
Definition yielder (vs : list value) (w : PyWorld) : nat * PyWorld :=
  (length (heap w), set_heap (heap w ++ [YielderEntry vs]) w).

(** [coro.send(None)]: advance the generator to its next suspension.  For
    [sleep] that is the body of lines 124-133, cut at [yield from future];
    on line 128 [timedelta(seconds=delay)] and the addition raise
    OverflowError when the delay, or the time it leads to, is out of range:
    the exception ends the generator and leaves it. *)
Definition coro_send (tick : N) (coro : nat) (w : PyWorld) : Outcome * PyWorld :=
  match heap w !! coro with
  | Some (SleepEntry delay result_) =>
      let '(future, w1) := create_future w in
      let '(now, w2) := datetime_now tick w1 in
      if timedelta_ok delay && datetime_ok (now + delay * 1000000) then
        let w3 := call_later (mkCallback (BoundSetResult future) [result_])
                    (now + delay * 1000000) w2 in
        match __iter__ future w3 with
        | Yielded v => (Return v, set_frame coro (SleepAwait future) w3)
        | Returned _ => (StopIteration (result_of future w3), set_frame coro Exhausted w3)
        end
      else (Raise, set_frame coro Exhausted w2)
  | Some (SleepAwait future) =>
      match __iter___resume with
      | Yielded v => (Return v, w)
      | Returned _ => (StopIteration (result_of future w), set_frame coro Exhausted w)
      end
  | Some (YielderEntry (v :: vs)) | Some (Yielder (v :: vs)) =>
      (Return v, set_frame coro (Yielder vs) w)
  | Some (YielderEntry []) | Some (Yielder []) =>
      (StopIteration VNone, set_frame coro Exhausted w)
  | Some Exhausted => (StopIteration VNone, w)
  | None => (Raise, w)
  end.

(** Invoking a callable of the source on its arguments: both methods take
    one argument.  [coro.send(v)] with [v] other than None raises TypeError
    on a generator that has not been advanced yet, and leaves it so; on any
    other generator it does what [send(None)] does, the bodies above making
    no use of the value sent. *)
Definition call_py (tick : N) (f : PyFn) (a : list value) (w : PyWorld) : Outcome * PyWorld :=
  match f, a with
  | BoundSend coro, [v] =>
      if negb (bool_decide (v = VNone)) && just_started (heap w !! coro)
      then (Raise, w)
      else coro_send tick coro w
  | BoundSetResult future, [v] => (Return VNone, set_result tick future v w)
  | _, _ => (Raise, w)
  end.

(** [run] on generator objects of the source. *)
Definition run_py (tick : N) (fuel : nat) (coros : list nat) (w : PyWorld) : Run PyFn (list Frame) :=
  run tick (call_py tick) BoundSend fuel coros w.

(** A process that has just started, at time [t]: nothing scheduled, no
    Future and no generator created. *)
Definition startup (t : Z) : PyWorld := mkWorld (mkLoop []) [] t [].

(** The demonstration of the source, [run(sleep(5), sleep(2), sleep(2))]:
    the world once the three generator objects are created, and the run. *)
Definition demo_world : PyWorld :=
  let '(_, w1) := sleep 5 VNone (startup 0) in
  let '(_, w2) := sleep 2 VNone w1 in
  let '(_, w3) := sleep 2 VNone w2 in
  w3.

Definition demo (fuel : nat) : Run PyFn (list Frame) :=
  run_py 1 fuel [0; 1; 2]%nat demo_world.

(** [run(g())] for [def g(): yield 5]. *)
Definition yield_five (fuel : nat) : Run PyFn (list Frame) :=
  let '(c, w) := yielder [VInt 5] (startup 0) in
  run_py 1 fuel [c] w.

(** [run(sleep(0), sleep(-5))]. *)
Definition hasty_world : PyWorld :=
  let '(_, w1) := sleep 0 VNone (startup 10000000) in
  let '(_, w2) := sleep (-5) VNone w1 in
  w2.

Definition hasty (fuel : nat) : Run PyFn (list Frame) :=
  run_py 1 fuel [0; 1]%nat hasty_world.

(** ** Sequences of calls on one Future *)

Section Calls.

Variable Fn : Type.
Variable Heap : Type.
Variable tick : N.

(** A call of one of the three mutating methods of a Future. *)
Inductive FutureCall : Type :=
  | CallSetResult (v : value)
  | CallCancel
  | CallAddDoneCallback (c : Callback Fn).

Definition apply_call (self : nat) (op : FutureCall) (w : World Fn Heap) : World Fn Heap :=
  match op with
  | CallSetResult v => set_result tick self v w
  | CallCancel => cancel self w
  | CallAddDoneCallback c => add_done_callback self c w
  end.

(** The calls of [ops] made in turn on the Future behind [self]. *)
Definition apply_calls (self : nat) (ops : list FutureCall) (w : World Fn Heap) : World Fn Heap :=
  foldl (fun w' op => apply_call self op w') w ops.

(** The status of the Future behind [self]. *)
Definition status_of (self : nat) (w : World Fn Heap) : option FutureStatus :=
  status <$> futures w !! self.

(** What one call does to the fields of the Future it is made on. *)
Definition after_call (op : FutureCall) (f : Future Fn) : Future Fn :=
  match op with
  | CallSetResult v => mkFuture (callbacks f) DONE (Some v)
  | CallCancel => mkFuture (callbacks f) CANCELLED (_result f)
  | CallAddDoneCallback c => mkFuture (callbacks f ++ [c]) (status f) (_result f)
  end.

Definition after_calls (ops : list FutureCall) (f : Future Fn) : Future Fn :=
  foldl (fun f' op => after_call op f') f ops.

(** The status the last [set_result] or [cancel] call of [ops] asks for,
    [s] when there is none. *)
Definition last_requested (s : FutureStatus) (ops : list FutureCall) : FutureStatus :=
  foldl (fun s' op =>
           match op with
           | CallSetResult _ => DONE
           | CallCancel => CANCELLED
           | CallAddDoneCallback _ => s'
           end) s ops.

(** The value given to the last [set_result] call of [ops], if any. *)
Definition last_set_result (ops : list FutureCall) : option value :=
  foldl (fun r op =>
           match op with
           | CallSetResult v => Some v
           | _ => r
           end) None ops.

(** The callbacks [ops] registers, in order. *)
Definition registered (ops : list FutureCall) : list (Callback Fn) :=
  omap (fun op => match op with CallAddDoneCallback c => Some c | _ => None end) ops.

Definition is_set_result (op : FutureCall) : bool :=
  match op with CallSetResult _ => true | _ => false end.

(** The callbacks the calls [ops] schedule onto the loop when they are made
    on a Future whose fields are [f]: each [set_result] schedules the
    callbacks registered by then. *)
Fixpoint scheduled_by (ops : list FutureCall) (f : Future Fn) : list (Callback Fn) :=
  match ops with
  | [] => []
  | op :: ops' =>
      (if is_set_result op then callbacks f else []) ++ scheduled_by ops' (after_call op f)
  end.

(** The events a loop of [call_soon] over [cs] appends when it starts with
    the clock at [t]: one per callback, a clock read apart. *)
Definition soon_events (t : Z) (cs : list (Callback Fn)) : list (Event Fn) :=
  imap (fun i c => mkEvent c (t + Z.of_nat i * Z.of_N tick)) cs.

End Calls.

Arguments CallSetResult {Fn} v.
Arguments CallCancel {Fn}.
Arguments CallAddDoneCallback {Fn} c.
Arguments apply_call {Fn Heap} tick self op w.
Arguments apply_calls {Fn Heap} tick self ops w.
Arguments status_of {Fn Heap} self w.
Arguments after_call {Fn} op f.
Arguments after_calls {Fn} ops f.
Arguments last_requested {Fn} s ops.
Arguments last_set_result {Fn} ops.
Arguments registered {Fn} ops.
Arguments is_set_result {Fn} op.
Arguments scheduled_by {Fn} ops f.
Arguments soon_events {Fn} tick t cs.

(** A process in which one Future has just been created ([create_future()]
    at startup); its reference is 0. *)
Definition one_future : PyWorld := (create_future (startup 0)).2.

(** The same Future once two callbacks have been registered on it. *)
Definition armed_future : PyWorld :=
  add_done_callback 0 (mkCallback (BoundSend 7) [VNone])
    (add_done_callback 0 (mkCallback (BoundSend 3) [VNone]) one_future).

(** Every [sleep] generator that has not started yet was given a
    non-negative delay. *)
Definition nonneg_delays (w : PyWorld) : Prop :=
  forall coro delay result_, heap w !! coro = Some (SleepEntry delay result_) -> 0 <= delay.

(** A world in which one event is pending, due 2.3 seconds after the clock. *)
Definition waiting_world : PyWorld :=
  call_later (mkCallback (BoundSetResult 0) [VNone]) 2300000 one_future.

(** A world in which one event is pending, due one microsecond after the
    clock. *)
Definition overdue_world : PyWorld :=
  call_later (mkCallback (BoundSetResult 0) [VNone]) 1 one_future.

(** The world of [run(g())], [def g(): yield 5], once [run] has scheduled the
    first step. *)
Definition yield_seeded : PyWorld :=
  seed 1 BoundSend [0%nat] (yielder [VInt 5] (startup 0)).2.

(** * Properties *)

Section FutureFacts.

Context {Fn Heap : Type}.
Variable tick : N.

Implicit Types (w : World Fn Heap) (f : Future Fn) (c : Callback Fn).
Implicit Types (op : FutureCall Fn) (ops : list (FutureCall Fn)).

Lemma call_soon_spec c w :
  call_soon tick c w =
  mkWorld (mkLoop (registry w ++ [mkEvent c (clock w)])) (futures w)
          (clock w + Z.of_N tick) (heap w).
Proof. reflexivity. Qed.

Lemma schedule_all_spec cs : forall w,
  foldl (fun w' c => call_soon tick c w') w cs =
  mkWorld (mkLoop (registry w ++ soon_events tick (clock w) cs)) (futures w)
          (clock w + Z.of_nat (length cs) * Z.of_N tick) (heap w).
Proof.
  induction cs as [|c cs IH]; intros w.
  - destruct w as [[es] fs t h]. unfold soon_events, registry. simpl.
    rewrite app_nil_r. f_equal. lia.
  - cbn [foldl]. rewrite IH, call_soon_spec. unfold registry, soon_events. cbn.
    rewrite <- app_assoc. cbn. f_equal.
    + f_equal. f_equal. f_equal.
      * f_equal. lia.
      * apply imap_ext. intros i x _. cbn. f_equal. lia.
    + lia.
Qed.

Lemma alter_lookup_insert {A} (g : A -> A) (l : list A) i x :
  l !! i = Some x -> alter g i l = <[i := g x]> l.
Proof.
  revert i. induction l as [|y l IH]; intros [|i] H; try discriminate.
  - cbn in H. injection H as ->. reflexivity.
  - cbn in *. f_equal. auto.
Qed.

Lemma update_future_spec self g w f :
  futures w !! self = Some f ->
  update_future self g w =
  mkWorld (current_loop w) (<[self := g f]> (futures w)) (clock w) (heap w).
Proof.
  intros H. unfold update_future, set_futures.
  now rewrite (alter_lookup_insert _ _ _ _ H).
Qed.

Lemma lookup_insert_hit {A} (l : list A) i x y :
  l !! i = Some y -> <[i := x]> l !! i = Some x.
Proof. intros H. apply list_lookup_insert_eq. eapply lookup_lt_Some, H. Qed.

(** [set_result] in one equation: the Future gets the value and DONE, the
    registry gets one event per registered callback. *)
Lemma set_result_spec self v w f :
  futures w !! self = Some f ->
  set_result tick self v w =
  mkWorld (mkLoop (registry w ++ soon_events tick (clock w) (callbacks f)))
          (<[self := mkFuture (callbacks f) DONE (Some v)]> (futures w))
          (clock w + Z.of_nat (length (callbacks f)) * Z.of_N tick) (heap w).
Proof.
  intros H. unfold set_result.
  rewrite (update_future_spec _ _ _ _ H).
  erewrite update_future_spec by (cbn; eapply lookup_insert_hit, H).
  cbn. rewrite list_insert_insert_eq.
  unfold _schedule_callbacks. cbn.
  rewrite (lookup_insert_hit _ _ _ _ H). cbn.
  now rewrite schedule_all_spec.
Qed.

Lemma cancel_spec self w f :
  futures w !! self = Some f ->
  cancel self w =
  mkWorld (current_loop w)
          (<[self := mkFuture (callbacks f) CANCELLED (_result f)]> (futures w))
          (clock w) (heap w).
Proof. intros H. unfold cancel. now rewrite (update_future_spec _ _ _ _ H). Qed.

Lemma add_done_callback_spec self c w f :
  futures w !! self = Some f ->
  add_done_callback self c w =
  mkWorld (current_loop w)
          (<[self := mkFuture (callbacks f ++ [c]) (status f) (_result f)]> (futures w))
          (clock w) (heap w).
Proof. intros H. unfold add_done_callback. now rewrite (update_future_spec _ _ _ _ H). Qed.

(** One call leaves the Future as [after_call] says and appends to the
    registry the events of the callbacks it schedules. *)
Lemma apply_call_spec self op w f :
  futures w !! self = Some f ->
  futures (apply_call tick self op w) !! self = Some (after_call op f) /\
  exists new,
    registry (apply_call tick self op w) = registry w ++ new /\
    callback <$> new = (if is_set_result op then callbacks f else []).
Proof.
  intros H. destruct op as [v| |c]; cbn [apply_call after_call is_set_result].
  - rewrite (set_result_spec _ _ _ _ H). cbn. split.
    + eapply lookup_insert_hit, H.
    + eexists. split; [reflexivity|].
      unfold soon_events. rewrite fmap_imap. cbn.
      clear. generalize 0%nat. induction (callbacks f) as [|c l IH]; intros n; cbn; [done|].
      f_equal. apply (IH (S n)).
  - rewrite (cancel_spec _ _ _ H). cbn. split.
    + eapply lookup_insert_hit, H.
    + exists []. now rewrite app_nil_r.
  - rewrite (add_done_callback_spec _ _ _ _ H). cbn. split.
    + eapply lookup_insert_hit, H.
    + exists []. now rewrite app_nil_r.
Qed.

(** The callbacks scheduled onto the loop by the calls [ops] made on a
    Future whose fields are [f]. *)
Lemma apply_calls_spec self ops : forall w f,
  futures w !! self = Some f ->
  futures (apply_calls tick self ops w) !! self = Some (after_calls ops f) /\
  exists new,
    registry (apply_calls tick self ops w) = registry w ++ new /\
    callback <$> new = scheduled_by ops f.
Proof.
  induction ops as [|op ops IH]; intros w f H.
  - cbn. split; [done|]. exists []. now rewrite app_nil_r.
  - cbn [apply_calls foldl].
    destruct (apply_call_spec self op w f H) as [Hf [new1 [Hr1 Hc1]]].
    destruct (IH _ _ Hf) as [Hf' [new2 [Hr2 Hc2]]].
    split; [exact Hf'|].
    exists (new1 ++ new2). split.
    + unfold apply_calls in Hr2. rewrite Hr2, Hr1. now rewrite app_assoc.
    + rewrite fmap_app, Hc1, Hc2. reflexivity.
Qed.

Lemma after_calls_status ops : forall f,
  status (after_calls ops f) = last_requested (status f) ops.
Proof.
  induction ops as [|op ops IH]; intros f; [done|].
  cbn [after_calls foldl last_requested]. unfold after_calls in IH. rewrite IH.
  now destruct op.
Qed.

Lemma last_requested_terminal ops : forall s,
  s <> SCHEDULED -> last_requested s ops <> SCHEDULED.
Proof.
  induction ops as [|op ops IH]; intros s Hs; [done|].
  cbn [last_requested foldl]. apply IH. now destruct op.
Qed.

Lemma after_calls_result ops : forall f,
  _result (after_calls ops f) =
  match last_set_result ops with Some v => Some v | None => _result f end.
Proof.
  induction ops as [|op ops IH] using rev_ind; intros f; [done|].
  unfold after_calls, last_set_result in *. rewrite !foldl_snoc.
  destruct op; cbn; auto.
Qed.

(** ** The status of a Future *)

(** C1, as the code has it: [set_result] and [cancel] assign the status
    without looking at it, so after any sequence of calls the status is the
    one the last [set_result] (DONE) or [cancel] (CANCELLED) asked for, and
    the status the Future had if there was no such call; a status other than
    SCHEDULED is never followed by SCHEDULED. *)
Theorem status_follows_last_call w self f ops :
  futures w !! self = Some f ->
  status_of self (apply_calls tick self ops w) = Some (last_requested (status f) ops) /\
  (status f <> SCHEDULED -> last_requested (status f) ops <> SCHEDULED).
Proof.
  intros H. split.
  - unfold status_of.
    destruct (apply_calls_spec self ops w f H) as [-> _]. cbn.
    now rewrite after_calls_status.
  - apply last_requested_terminal.
Qed.

(** C4, as the code has it: on a Future created with no result, after any
    sequence of calls [result] is the value given to the last [set_result]
    call, and None when there was none, whatever the status; so it is None
    while the status is SCHEDULED, and when the status is DONE it is the
    value of a [set_result] call. *)
Theorem result_is_last_set_result w self f ops :
  futures w !! self = Some f ->
  status f = SCHEDULED ->
  _result f = None ->
  exists f',
    futures (apply_calls tick self ops w) !! self = Some f' /\
    result f' = match last_set_result ops with Some v => v | None => VNone end /\
    (status f' = SCHEDULED -> result f' = VNone) /\
    (status f' = DONE -> exists v, last_set_result ops = Some v /\ result f' = v).
Proof.
  intros H Hs Hr. exists (after_calls ops f).
  destruct (apply_calls_spec self ops w f H) as [Hf _].
  split; [exact Hf|].
  assert (Hres : result (after_calls ops f) =
                 match last_set_result ops with Some v => v | None => VNone end).
  { unfold result. rewrite after_calls_result, Hr. now destruct (last_set_result ops). }
  split; [exact Hres|].
  rewrite Hres, after_calls_status, Hs. clear.
  induction ops as [|op ops IH] using rev_ind.
  - cbn. split; [done|discriminate].
  - unfold last_requested, last_set_result in *. rewrite !foldl_snoc.
    destruct op; cbn; split; try discriminate; eauto; apply IH.
Qed.

(** C5: on a Future whose status is SCHEDULED, [set_result(value)] leaves the
    Future with [result = value], [status = DONE] and the same callbacks,
    leaves every other Future alone, and appends to the registry of the loop
    one event per registered callback, in registration order, each built by
    [call_soon]; nothing else is appended. *)
Theorem set_result_schedules_registered w self f v :
  futures w !! self = Some f ->
  status f = SCHEDULED ->
  futures (set_result tick self v w) !! self = Some (mkFuture (callbacks f) DONE (Some v)) /\
  result (mkFuture (callbacks f) DONE (Some v)) = v /\
  (forall other, other <> self ->
     futures (set_result tick self v w) !! other = futures w !! other) /\
  registry (set_result tick self v w) =
    registry w ++ soon_events tick (clock w) (callbacks f) /\
  callback <$> soon_events tick (clock w) (callbacks f) = callbacks f.
Proof.
  intros H _. rewrite (set_result_spec _ _ _ _ H). cbn.
  split; [eapply lookup_insert_hit, H|].
  split; [reflexivity|].
  split; [intros other Hne; now apply list_lookup_insert_ne|].
  split; [reflexivity|].
  destruct (apply_call_spec self (CallSetResult v) w f H) as [_ [new [Hr Hc]]].
  cbn in Hr, Hc. rewrite (set_result_spec _ _ _ _ H) in Hr. cbn in Hr.
  apply app_inv_head in Hr. now rewrite Hr.
Qed.

(** C7: the first step of the generator [Future.__iter__] has one of three
    outcomes, by status.  DONE: it returns the stored result, the value
    [_result] holds (None if the attribute was never set), without yielding;
    so right after [set_result(v)] it returns [v].  CANCELLED: it returns
    None without yielding, also when a result is stored.  SCHEDULED: it
    yields the Future itself. *)
Theorem iter_outcome_by_status w self f :
  futures w !! self = Some f ->
  (status f = DONE -> forall v, _result f = Some v -> __iter__ self w = Returned v) /\
  (status f = DONE -> _result f = None -> __iter__ self w = Returned VNone) /\
  (status f = CANCELLED -> __iter__ self w = Returned VNone) /\
  (status f = SCHEDULED -> __iter__ self w = Yielded (VFuture self)) /\
  (forall v, __iter__ self (set_result tick self v w) = Returned v) /\
  (forall v, __iter__ self (cancel self (set_result tick self v w)) = Returned VNone).
Proof.
  intros H.
  assert (H1 : forall v, futures (set_result tick self v w) !! self =
                         Some (mkFuture (callbacks f) DONE (Some v))).
  { intros v. rewrite (set_result_spec _ _ _ _ H). cbn. eapply lookup_insert_hit, H. }
  unfold __iter__. rewrite H.
  split; [intros -> v Hv; unfold result; now rewrite Hv|].
  split; [intros -> Hv; unfold result; now rewrite Hv|].
  split; [now intros ->|]. split; [now intros ->|].
  split; intros v.
  - now rewrite H1.
  - rewrite (cancel_spec _ _ _ (H1 v)). cbn.
    now rewrite (lookup_insert_hit _ _ _ _ (H1 v)).
Qed.

(** C8: [cancel()] sets the status to CANCELLED and changes nothing else:
    the result and the callbacks of the Future, the other Futures, the loop,
    the clock and the heap are as before; after [set_result(v)], [cancel()]
    leaves [result] equal to [v]. *)
Theorem cancel_only_sets_status w self f v :
  futures w !! self = Some f ->
  cancel self w =
    mkWorld (current_loop w)
            (<[self := mkFuture (callbacks f) CANCELLED (_result f)]> (futures w))
            (clock w) (heap w) /\
  result <$> futures (cancel self w) !! self = Some (result f) /\
  callbacks <$> futures (cancel self w) !! self = Some (callbacks f) /\
  status_of self (cancel self w) = Some CANCELLED /\
  result <$> futures (cancel self (set_result tick self v w)) !! self = Some v.
Proof.
  intros H.
  assert (H' : futures (set_result tick self v w) !! self =
               Some (mkFuture (callbacks f) DONE (Some v))).
  { rewrite (set_result_spec _ _ _ _ H). cbn. eapply lookup_insert_hit, H. }
  rewrite (cancel_spec _ _ _ H'), (cancel_spec _ _ _ H). unfold status_of. cbn.
  rewrite (lookup_insert_hit _ _ _ _ H), (lookup_insert_hit _ _ _ _ H').
  repeat split.
Qed.

Lemma scheduled_by_none ops : forall f,
  forallb (fun op => negb (is_set_result op)) ops = true ->
  scheduled_by ops f = [] /\
  callbacks (after_calls ops f) = callbacks f ++ registered ops.
Proof.
  induction ops as [|op ops IH]; intros f Hn.
  - cbn. now rewrite app_nil_r.
  - cbn in Hn. apply andb_prop in Hn as [Hop Hn].
    destruct (IH (after_call op f) Hn) as [IH1 IH2].
    cbn [scheduled_by after_calls foldl]. unfold after_calls in IH2.
    rewrite IH1, IH2. destruct op; try discriminate; cbn.
    + done.
    + now rewrite <- app_assoc.
Qed.

Lemma scheduled_by_app ops1 : forall ops2 f,
  scheduled_by (ops1 ++ ops2) f =
  scheduled_by ops1 f ++ scheduled_by ops2 (after_calls ops1 f).
Proof.
  induction ops1 as [|op ops1 IH]; intros ops2 f; [done|].
  cbn [app scheduled_by]. rewrite IH, app_assoc. reflexivity.
Qed.

(** C9: when exactly one [set_result] call is made on a Future, the events
    appended to the loop over the whole sequence of calls are those of the
    callbacks the Future had, or had got through [add_done_callback], before
    that call, in order; a callback registered after it, and not also before
    it, is in no appended event. *)
Theorem late_callback_never_scheduled w self f pre v post :
  futures w !! self = Some f ->
  forallb (fun op => negb (is_set_result op)) pre = true ->
  forallb (fun op => negb (is_set_result op)) post = true ->
  exists new,
    registry (apply_calls tick self (pre ++ CallSetResult v :: post) w) = registry w ++ new /\
    callback <$> new = callbacks f ++ registered pre /\
    (forall c, c ∈ registered post -> c ∉ callbacks f ++ registered pre ->
               c ∉ callback <$> new).
Proof.
  intros H Hpre Hpost.
  destruct (apply_calls_spec self (pre ++ CallSetResult v :: post) w f H)
    as [_ [new [Hr Hc]]].
  exists new. split; [exact Hr|].
  assert (Hc' : callback <$> new = callbacks f ++ registered pre).
  { rewrite Hc, scheduled_by_app.
    destruct (scheduled_by_none pre f Hpre) as [-> Hcb]. cbn [app scheduled_by is_set_result].
    destruct (scheduled_by_none post (after_call (CallSetResult v) (after_calls pre f)) Hpost)
      as [-> _].
    rewrite app_nil_r. exact Hcb. }
  split; [exact Hc'|].
  intros c _ Hnot. now rewrite Hc'.
Qed.

(** C10: [done()] is true exactly when the status is not SCHEDULED; a Future
    that was cancelled without a result ever being set reports
    [done() = true], as one completed by [set_result] does. *)
Theorem done_iff_not_scheduled w self f v :
  futures w !! self = Some f ->
  (forall g : Future Fn, done g = true <-> status g <> SCHEDULED) /\
  (_result f = None ->
     (fun g => (done g, _result g)) <$> futures (cancel self w) !! self = Some (true, None)) /\
  done <$> futures (set_result tick self v w) !! self = Some true.
Proof.
  intros H. split; [|split].
  - intros g. unfold done. destruct (status g); cbn; split; try done.
  - intros Hr. rewrite (cancel_spec _ _ _ H). cbn.
    rewrite (lookup_insert_hit _ _ _ _ H). cbn. now rewrite Hr.
  - rewrite (set_result_spec _ _ _ _ H). cbn.
    now rewrite (lookup_insert_hit _ _ _ _ H).
Qed.

End FutureFacts.

(** ** The stable sort of the registry *)

Section SortFacts.

Context {Fn : Type}.

Implicit Types (e x : Event Fn) (l : list (Event Fn)).

Lemma insert_by_when_perm e l : insert_by_when e l ≡ₚ e :: l.
Proof.
  induction l as [|x r IH]; cbn; [done|].
  destruct (when e <=? when x); [done|].
  rewrite IH. apply Permutation_swap.
Qed.

Lemma sort_by_when_perm l : sort_by_when l ≡ₚ l.
Proof.
  induction l as [|x r IH]; cbn; [done|].
  now rewrite insert_by_when_perm, IH.
Qed.

Lemma sort_by_when_length l : length (sort_by_when l) = length l.
Proof. apply Permutation_length, sort_by_when_perm. Qed.

Lemma insert_by_when_sorted e l :
  StronglySorted (fun a b => when a <= when b) l ->
  StronglySorted (fun a b => when a <= when b) (insert_by_when e l).
Proof.
  induction 1 as [|x r Hr IH Hx]; cbn.
  - repeat constructor.
  - destruct (Z.leb_spec (when e) (when x)) as [Hle|Hgt].
    + constructor; [now constructor|].
      constructor; [exact Hle|].
      eapply Forall_impl; [exact Hx|]. cbn. intros; lia.
    + constructor; [exact IH|].
      rewrite insert_by_when_perm. constructor; [lia|exact Hx].
Qed.

Lemma sort_by_when_sorted l :
  StronglySorted (fun a b => when a <= when b) (sort_by_when l).
Proof.
  induction l as [|x r IH]; cbn; [constructor|].
  now apply insert_by_when_sorted.
Qed.

(** Stability: the events with a given timestamp keep their order. *)
Lemma insert_by_when_stable t e l :
  filter (fun y => when y = t) (insert_by_when e l) =
  filter (fun y => when y = t) (e :: l).
Proof.
  induction l as [|x r IH]; cbn [insert_by_when]; [done|].
  destruct (Z.leb_spec (when e) (when x)) as [Hle|Hgt]; [done|].
  rewrite filter_cons, IH.
  rewrite (filter_cons _ e (x :: r)), (filter_cons _ e r), (filter_cons _ x r).
  repeat case_decide; try done; lia.
Qed.

Lemma sort_by_when_stable t l :
  filter (fun y => when y = t) (sort_by_when l) = filter (fun y => when y = t) l.
Proof.
  induction l as [|x r IH]; cbn [sort_by_when foldr]; [done|].
  fold (sort_by_when r).
  now rewrite insert_by_when_stable, !filter_cons, IH.
Qed.

End SortFacts.

(** ** The loop of [run] *)

Section RunFacts.

Context {Fn Heap : Type}.
Variable tick : N.
Variable call : Fn -> list value -> World Fn Heap -> Outcome * World Fn Heap.

Implicit Types (w : World Fn Heap) (e : Event Fn) (results : list value).

Lemma at_call_registry w : registry (at_call tick w) = sort_by_when (registry w).
Proof. reflexivity. Qed.

Lemma at_call_clock w : clock (at_call tick w) = clock w + Z.of_N tick.
Proof. reflexivity. Qed.

Lemma settle_registry e v w results :
  registry (settle e v w results).1 = registry w.
Proof. destruct v; reflexivity. Qed.

(** A pass that invokes a callback: the event is the first of the sorted
    registry and is due; the pass leaves the registry as the call left it,
    less its first event. *)
Lemma loop_body_Executed w results e w' results' :
  loop_body tick call w results = Executed e w' results' ->
  exists rest,
    sort_by_when (registry w) = e :: rest /\
    when e <= clock w /\
    registry w' =
      drop 1 (registry (call (fn (callback e)) (args (callback e)) (at_call tick w)).2).
Proof.
  unfold loop_body. cbn -[sort_by_when].
  destruct (sort_by_when (registry w)) as [|x rest] eqn:Hs; [discriminate|].
  destruct (Z.leb_spec (when x) (clock w)) as [Hle|Hgt]; [|discriminate].
  unfold at_call. cbn -[sort_by_when].
  set (w2 := set_clock (clock w + Z.of_N tick) (set_events (x :: rest) w)).
  destruct (call (fn (callback x)) (args (callback x)) w2) as [out w3] eqn:Hc.
  assert (Hgen : forall v,
    (let '(w4, results'0) := settle x v w3 results in
     match registry w4 with
     | [] => Aborted w4
     | _ :: rest0 => Executed x (set_events rest0 w4) results'0
     end) = Executed e w' results' ->
    exists rest0, x :: rest = e :: rest0 /\ when e <= clock w /\
      registry w' = drop 1 (registry (call (fn (callback e)) (args (callback e)) w2).2)).
  { intros v. pose proof (settle_registry x v w3 results) as Hreg.
    destruct (settle x v w3 results) as [w4 r4]. cbn in Hreg.
    destruct (registry w4) as [|y tl'] eqn:H4; [discriminate|].
    intros [= <- <- <-]. exists rest. rewrite Hc. cbn. now rewrite <- Hreg. }
  destruct out as [v|v|]; [apply Hgen|apply Hgen|discriminate].
Qed.

(** A pass that finds no event due only sorts the registry and waits. *)
Lemma loop_body_Blocked w results w' :
  loop_body tick call w results = Blocked w' ->
  registry w' = sort_by_when (registry w).
Proof.
  unfold loop_body. cbn -[sort_by_when].
  destruct (sort_by_when (registry w)) as [|x rest] eqn:Hs; [discriminate|].
  destruct (when x <=? clock w).
  - match goal with |- context [call ?f ?a ?w2] => destruct (call f a w2) as [out w3] end.
    destruct out as [v|v|]; try discriminate;
      destruct (settle x v w3 results) as [w4 r4];
      destruct (registry w4); discriminate.
  - intros [= <-]. reflexivity.
Qed.

(** A pass leaves the heap as the call it made, if any, left it. *)
Lemma loop_body_heap w results :
  match loop_body tick call w results with
  | Executed e w' _ =>
      heap w' = heap (call (fn (callback e)) (args (callback e)) (at_call tick w)).2
  | Blocked w' => heap w' = heap w
  | Aborted _ => True
  end.
Proof.
  unfold loop_body, at_call. cbn -[sort_by_when].
  destruct (sort_by_when (registry w)) as [|x rest]; [exact I|].
  destruct (when x <=? clock w); [|reflexivity].
  set (w2 := set_clock (clock w + Z.of_N tick) (set_events (x :: rest) w)).
  destruct (call (fn (callback x)) (args (callback x)) w2) as [out w3] eqn:Hc.
  destruct out as [v|v|]; try exact I;
    (assert (Hh : heap (settle x v w3 results).1 = heap w3) by (destruct v; reflexivity);
     destruct (settle x v w3 results) as [w4 r4]; cbn in Hh;
     destruct (registry w4); [exact I|cbn; rewrite Hc; exact Hh]).
Qed.

Lemma schedules_forward_intro f a w new :
  registry (call f a w).2 = registry w ++ new ->
  Forall (fun e => clock w <= when e) new ->
  schedules_forward call f a w.
Proof.
  intros Hr Hf. unfold schedules_forward. cbn. rewrite Hr, drop_app_length. now split.
Qed.

(** When every call made in a world whose heap satisfies [P] schedules
    forward and leaves such a heap, every execution from such a world is
    punctual. *)
Lemma punctual_of_forward (P : Heap -> Prop) :
  (forall f a w, P (heap w) ->
     schedules_forward call f a w /\ P (heap (call f a w).2)) ->
  forall fuel w results, P (heap w) -> punctual tick call fuel w results.
Proof.
  intros Hfwd. induction fuel as [|n IH]; intros w results HP; cbn [punctual].
  - now destruct (registry w).
  - destruct (registry w) as [|x0 l0] eqn:Hw; [exact I|].
    pose proof (loop_body_heap w results) as Hheap.
    destruct (loop_body tick call w results) as [e w' results'|w'|w'] eqn:Hb.
    + destruct (Hfwd (fn (callback e)) (args (callback e)) (at_call tick w) HP)
        as [Hsf HP'].
      split; [exact Hsf|]. apply IH. now rewrite Hheap.
    + apply IH. now rewrite Hheap.
    + exact I.
Qed.

(** What a forward-scheduling call leaves in the registry after the pass. *)
Lemma executed_pass_registry w results e w' results' :
  loop_body tick call w results = Executed e w' results' ->
  schedules_forward call (fn (callback e)) (args (callback e)) (at_call tick w) ->
  exists rest new,
    sort_by_when (registry w) = e :: rest /\
    when e <= clock w /\
    registry w' = rest ++ new /\
    drop (length (registry w) - 1) (registry w') = new /\
    Forall (fun x => when e <= when x) (rest ++ new).
Proof.
  intros Hb [Happ Hfwd].
  destruct (loop_body_Executed _ _ _ _ _ Hb) as [rest [Hs [Hdue Hreg]]].
  rewrite at_call_registry, Hs in Happ, Hfwd. rewrite at_call_clock in Hfwd.
  set (new := drop (length (e :: rest)) _) in *.
  exists rest, new.
  assert (Hw' : registry w' = rest ++ new) by (rewrite Hreg, Happ; reflexivity).
  split; [exact Hs|]. split; [exact Hdue|]. split; [exact Hw'|]. split.
  - rewrite Hw'. apply drop_app_length'.
    rewrite <- (sort_by_when_length (registry w)), Hs. cbn. lia.
  - apply Forall_app. split.
    + pose proof (sort_by_when_sorted (registry w)) as Hsorted.
      rewrite Hs in Hsorted. now apply StronglySorted_inv in Hsorted as [_ H].
    + eapply Forall_impl; [exact Hfwd|]. cbn. intros; lia.
Qed.

Local Ltac nothing_executed :=
  cbn;
  split; [constructor|];
  split; [constructor|];
  split; [intros; apply prefix_nil|];
  intros ? ? ?; first [discriminate | reflexivity].

(** The invariant of the loop, for an execution whose callbacks schedule
    forward: the events are executed by non-decreasing [when], none before a
    lower bound [b] of the registry, and for each timestamp [t] the executed
    events due at [t] are, in order, the first of those that were in the
    registry or were appended since; all of them once the loop has ended. *)
Lemma run_loop_order fuel : forall w results b,
  punctual tick call fuel w results ->
  Forall (fun e => b <= when e) (registry w) ->
  Forall (fun e => b <= when e) (executed (run_loop tick call fuel w results)) /\
  StronglySorted Z.le (when <$> executed (run_loop tick call fuel w results)) /\
  (forall t,
     filter (fun e => when e = t) (executed (run_loop tick call fuel w results))
     `prefix_of`
     filter (fun e => when e = t) (registry w ++ enqueued tick call fuel w results)) /\
  (forall r, outcome (run_loop tick call fuel w results) = Completed r ->
     forall t,
       filter (fun e => when e = t) (executed (run_loop tick call fuel w results)) =
       filter (fun e => when e = t) (registry w ++ enqueued tick call fuel w results)).
Proof.
  induction fuel as [|n IH]; intros w results b Hp Hb.
  - cbn. destruct (registry w) as [|x0 l0]; nothing_executed.
  - cbn [run_loop enqueued punctual] in *.
    destruct (registry w) as [|x0 l0] eqn:Hw.
    { nothing_executed. }
    destruct (loop_body tick call w results) as [e w' results'|w'|w'] eqn:Hbody.
    + destruct Hp as [Hfwd Hp].
      destruct (executed_pass_registry _ _ _ _ _ Hbody Hfwd)
        as [rest [new [Hs [Hdue [Hw' [Hnew Hge]]]]]].
      rewrite Hw in Hnew. rewrite Hnew.
      rewrite <- Hw' in Hge.
      destruct (IH w' results' (when e) Hp Hge) as [IHb [IHs [IHp IHc]]].
      assert (Hbe : b <= when e).
      { rewrite <- Hw in Hb. rewrite <- (sort_by_when_perm (registry w)), Hs in Hb.
        now apply Forall_cons in Hb as [? _]. }
      assert (Hkey : forall t,
        filter (fun y => when y = t) ((x0 :: l0) ++ new ++ enqueued tick call n w' results') =
        filter (fun y => when y = t) (e :: registry w' ++ enqueued tick call n w' results')).
      { intros t. rewrite <- Hw, Hw'.
        rewrite filter_app, <- (sort_by_when_stable t (registry w)), Hs.
        rewrite <- filter_app. cbn [app]. now rewrite <- app_assoc. }
      cbn [executed outcome fmap list_fmap].
      split; [|split; [|split]].
      * constructor; [exact Hbe|].
        eapply Forall_impl; [exact IHb|]. cbn. intros; lia.
      * constructor; [exact IHs|]. now apply Forall_fmap.
      * intros t. rewrite Hkey, !filter_cons.
        case_decide; [apply prefix_cons|]; apply IHp.
      * intros r Hr t. rewrite Hkey, !filter_cons.
        case_decide; [f_equal|]; now apply (IHc r).
    + pose proof (loop_body_Blocked _ _ _ Hbody) as Hw'.
      assert (Hb' : Forall (fun e => b <= when e) (registry w')).
      { rewrite Hw', sort_by_when_perm, Hw. exact Hb. }
      destruct (IH w' results b Hp Hb') as [IHb [IHs [IHp IHc]]].
      assert (Hkey : forall t,
        filter (fun y => when y = t) ((x0 :: l0) ++ enqueued tick call n w' results) =
        filter (fun y => when y = t) (registry w' ++ enqueued tick call n w' results)).
      { intros t. rewrite <- Hw, Hw', !filter_app. now rewrite sort_by_when_stable. }
      split; [exact IHb|]. split; [exact IHs|]. split.
      * intros t. rewrite Hkey. apply IHp.
      * intros r Hr t. rewrite Hkey. now apply (IHc r).
    + nothing_executed.
Qed.

Lemma lower_bound_exists (l : list (Event Fn)) :
  exists b, Forall (fun e => b <= when e) l.
Proof.
  induction l as [|x l [b IH]].
  - exists 0. constructor.
  - exists (Z.min b (when x)). constructor; [lia|].
    eapply Forall_impl; [exact IH|]. cbn. intros; lia.
Qed.

Lemma settle_plain e n w results : settle e (VInt n) w results = (w, results).
Proof. reflexivity. Qed.

Lemma settle_none e w results : settle e VNone w results = (w, results ++ [VNone]).
Proof. reflexivity. Qed.

Variable Generator : Type.
Variable send : Generator -> Fn.

(** C2, as the code has it: [run()] with no computation returns at once,
    with None and not with a list; it invokes no callback and leaves the
    loop, and the rest of the world, as they were. *)
Theorem run_nothing fuel w :
  run tick call send fuel [] w = mkRun (Completed RNone) [] w /\
  registry (final (run tick call send fuel [] w)) = registry w.
Proof. split; reflexivity. Qed.

(** What a call that only appends leaves in the registry after the pass. *)
Lemma appended_pass_registry w results e w' results' :
  loop_body tick call w results = Executed e w' results' ->
  appends_only call (fn (callback e)) (args (callback e)) (at_call tick w) ->
  exists rest new,
    sort_by_when (registry w) = e :: rest /\
    registry w' = rest ++ new /\
    drop (length (registry w) - 1) (registry w') = new.
Proof.
  intros Hb Happ. unfold appends_only in Happ. cbn zeta in Happ.
  destruct (loop_body_Executed _ _ _ _ _ Hb) as [rest [Hs [Hdue Hreg]]].
  rewrite at_call_registry, Hs in Happ.
  set (new := drop (length (e :: rest)) _) in *.
  exists rest, new.
  assert (Hw' : registry w' = rest ++ new) by (rewrite Hreg, Happ; reflexivity).
  split; [exact Hs|]. split; [exact Hw'|].
  rewrite Hw'. apply drop_app_length'.
  rewrite <- (sort_by_when_length (registry w)), Hs. cbn. lia.
Qed.

(** First in, first out among events with the same timestamp, for an
    execution whose callbacks only append: for each timestamp [t] the
    executed events due at [t] are, in order, the first of those that were
    in the registry or were appended since; all of them once the loop has
    ended. *)
Lemma run_loop_fifo fuel : forall w results,
  appending tick call fuel w results ->
  (forall t,
     filter (fun e => when e = t) (executed (run_loop tick call fuel w results))
     `prefix_of`
     filter (fun e => when e = t) (registry w ++ enqueued tick call fuel w results)) /\
  (forall r, outcome (run_loop tick call fuel w results) = Completed r ->
     forall t,
       filter (fun e => when e = t) (executed (run_loop tick call fuel w results)) =
       filter (fun e => when e = t) (registry w ++ enqueued tick call fuel w results)).
Proof.
  induction fuel as [|n IH]; intros w results Hp.
  - cbn. destruct (registry w) as [|x0 l0]; cbn;
      (split; [intros; apply prefix_nil|intros ? ? ?; first [discriminate|reflexivity]]).
  - cbn [run_loop enqueued appending] in *.
    destruct (registry w) as [|x0 l0] eqn:Hw.
    { cbn. split; [intros; apply prefix_nil|reflexivity]. }
    destruct (loop_body tick call w results) as [e w' results'|w'|w'] eqn:Hbody.
    + destruct Hp as [Happ Hp].
      destruct (appended_pass_registry _ _ _ _ _ Hbody Happ)
        as [rest [new [Hs [Hw' Hnew]]]].
      rewrite Hw in Hnew. rewrite Hnew.
      destruct (IH w' results' Hp) as [IHp IHc].
      assert (Hkey : forall t,
        filter (fun y => when y = t) ((x0 :: l0) ++ new ++ enqueued tick call n w' results') =
        filter (fun y => when y = t) (e :: registry w' ++ enqueued tick call n w' results')).
      { intros t. rewrite <- Hw, Hw'.
        rewrite filter_app, <- (sort_by_when_stable t (registry w)), Hs.
        rewrite <- filter_app. cbn [app]. now rewrite <- app_assoc. }
      cbn [executed outcome]. split.
      * intros t. rewrite Hkey, !filter_cons.
        case_decide; [apply prefix_cons|]; apply IHp.
      * intros r Hr t. rewrite Hkey, !filter_cons.
        case_decide; [f_equal|]; now apply (IHc r).
    + pose proof (loop_body_Blocked _ _ _ Hbody) as Hw'.
      destruct (IH w' results Hp) as [IHp IHc].
      assert (Hkey : forall t,
        filter (fun y => when y = t) ((x0 :: l0) ++ enqueued tick call n w' results) =
        filter (fun y => when y = t) (registry w' ++ enqueued tick call n w' results)).
      { intros t. rewrite <- Hw, Hw', !filter_app. now rewrite sort_by_when_stable. }
      split.
      * intros t. rewrite Hkey. apply IHp.
      * intros r Hr t. rewrite Hkey. now apply (IHc r).
    + cbn. split; [intros; apply prefix_nil|discriminate].
Qed.


End RunFacts.

(** ** The callables of the source schedule forward *)

Section SourceFacts.

Variable tick : N.

Implicit Types (w : PyWorld).

Lemma imap_when_forward {Fn} t (cs : list (Callback Fn)) : forall g : nat -> Z,
  (forall i, t <= g i) ->
  Forall (fun e => t <= when e) (imap (fun i c => mkEvent c (g i)) cs).
Proof.
  induction cs as [|c cs IH]; intros g Hg; cbn; constructor.
  - apply Hg.
  - apply (IH (fun i => g (S i))). intros i. apply Hg.
Qed.

Lemma soon_events_forward {Fn} t (cs : list (Callback Fn)) :
  Forall (fun e => t <= when e) (soon_events tick t cs).
Proof.
  apply (imap_when_forward t cs (fun i => t + Z.of_nat i * Z.of_N tick)).
  intros; nia.
Qed.

(** [set_result] only appends to the registry, events due from now on, and
    leaves the heap alone. *)
Lemma set_result_forward self v w :
  exists new,
    registry (set_result tick self v w) = registry w ++ new /\
    Forall (fun e => clock w <= when e) new /\
    heap (set_result tick self v w) = heap w.
Proof.
  destruct (futures w !! self) as [f|] eqn:H.
  - rewrite (set_result_spec _ _ _ _ _ H). cbn.
    eexists. split; [reflexivity|]. split; [apply soon_events_forward|reflexivity].
  - exists []. unfold set_result, _schedule_callbacks, update_future. cbn.
    rewrite !list_lookup_alter_eq, H. cbn. rewrite app_nil_r. now repeat split.
Qed.

(** The first advance of [sleep] when line 128 does not overflow: lines
    124-131 up to the [yield]. *)
Lemma coro_send_entry coro delay result_ w :
  heap w !! coro = Some (SleepEntry delay result_) ->
  timedelta_ok delay && datetime_ok (clock w + delay * 1000000) = true ->
  coro_send tick coro w =
  (Return (VFuture (length (futures w))),
   mkWorld
     (mkLoop (registry w ++
              [mkEvent (mkCallback (BoundSetResult (length (futures w))) [result_])
                       (clock w + delay * 1000000)]))
     (futures w ++ [mkFuture [] SCHEDULED None])
     (clock w + Z.of_N tick)
     (<[coro := SleepAwait (length (futures w))]> (heap w))).
Proof.
  intros H Hok. unfold coro_send. rewrite H. cbn. rewrite Hok. cbn.
  unfold __iter__. cbn. rewrite list_lookup_middle by done. reflexivity.
Qed.

(** The first advance of [sleep] when line 128 overflows: the Future of line
    124 exists, the clock was read, nothing is scheduled and the generator
    is finished. *)
Lemma coro_send_overflow coro delay result_ w :
  heap w !! coro = Some (SleepEntry delay result_) ->
  timedelta_ok delay && datetime_ok (clock w + delay * 1000000) = false ->
  coro_send tick coro w =
  (Raise,
   mkWorld (current_loop w)
     (futures w ++ [mkFuture [] SCHEDULED None])
     (clock w + Z.of_N tick)
     (<[coro := Exhausted]> (heap w))).
Proof.
  intros H Hok. unfold coro_send. rewrite H. cbn. rewrite Hok. reflexivity.
Qed.

(** Advancing any other generator touches neither the registry, nor the
    Futures, nor the clock, and puts no frame back at the entry of [sleep]. *)
Lemma coro_send_started coro w :
  (forall d r, heap w !! coro <> Some (SleepEntry d r)) ->
  registry (coro_send tick coro w).2 = registry w /\
  futures (coro_send tick coro w).2 = futures w /\
  clock (coro_send tick coro w).2 = clock w /\
  (heap (coro_send tick coro w).2 = heap w \/
   exists fr, heap (coro_send tick coro w).2 = <[coro := fr]> (heap w) /\
              forall d r, fr <> SleepEntry d r).
Proof.
  intros Hno. unfold coro_send.
  destruct (heap w !! coro) as [[delay result_|future|[|v vs]|[|v vs]|]|] eqn:Hc; cbn;
    try (now destruct (Hno delay result_));
    repeat split; try (now left); right; eexists; split; try reflexivity; done.
Qed.

(** [send] with one argument either is refused, leaving the world as it is,
    or does what [send(None)] does. *)
Lemma call_py_send coro v w :
  call_py tick (BoundSend coro) [v] w = (Raise, w) \/
  call_py tick (BoundSend coro) [v] w = coro_send tick coro w.
Proof.
  cbn [call_py].
  destruct (negb (bool_decide (v = VNone)) && just_started (heap w !! coro)); auto.
Qed.

Lemma call_py_send_none coro w :
  call_py tick (BoundSend coro) [VNone] w = coro_send tick coro w.
Proof. reflexivity. Qed.

(** Advancing a generator of the source: [sleep] appends its one
    [call_later] event, due [delay] seconds from now; no frame is put back at
    the entry of [sleep]. *)
Lemma coro_send_forward coro w :
  nonneg_delays w ->
  exists new,
    registry (coro_send tick coro w).2 = registry w ++ new /\
    Forall (fun e => clock w <= when e) new /\
    nonneg_delays (coro_send tick coro w).2.
Proof.
  intros Hnn.
  assert (Hset : forall fr (h : list Frame),
    (h = heap w \/ (h = <[coro := fr]> (heap w) /\ forall d r, fr <> SleepEntry d r)) ->
    forall c d r, h !! c = Some (SleepEntry d r) -> 0 <= d).
  { intros fr h [->|[-> Hfr]] c d r Hl; [eapply Hnn, Hl|].
    apply list_lookup_insert_Some in Hl as [[_ [Heq _]]|[_ Hl]].
    - now destruct (Hfr d r).
    - eapply Hnn, Hl. }
  destruct (heap w !! coro) as [fr|] eqn:Hc.
  2:{ destruct (coro_send_started coro w) as (Hr & _ & _ & Hh).
      { intros d r. rewrite Hc. discriminate. }
      exists []. rewrite app_nil_r. split; [exact Hr|]. split; [constructor|].
      destruct Hh as [Hh|[fr [Hh Hfr]]];
        [refine (Hset Exhausted _ (or_introl Hh))|refine (Hset fr _ (or_intror (conj Hh Hfr)))]. }
  assert (Hfr : (exists d r, fr = SleepEntry d r) \/ forall d r, fr <> SleepEntry d r)
    by (destruct fr; eauto).
  destruct Hfr as [(delay & result_ & ->)|Hno].
  - pose proof (Hnn _ _ _ Hc) as Hd.
    destruct (timedelta_ok delay && datetime_ok (clock w + delay * 1000000)) eqn:Hok.
    + rewrite (coro_send_entry _ _ _ _ Hc Hok). cbn.
      eexists. split; [reflexivity|]. split; [repeat constructor; cbn; lia|].
      refine (Hset (SleepAwait (length (futures w))) _ (or_intror (conj eq_refl _))). done.
    + rewrite (coro_send_overflow _ _ _ _ Hc Hok). cbn.
      exists []. rewrite app_nil_r. split; [reflexivity|]. split; [constructor|].
      refine (Hset Exhausted _ (or_intror (conj eq_refl _))). done.
  - destruct (coro_send_started coro w) as (Hr & _ & _ & Hh).
    { intros d r. rewrite Hc. intros [= ->]. now apply (Hno d r). }
    exists []. rewrite app_nil_r. split; [exact Hr|]. split; [constructor|].
    destruct Hh as [Hh|[fr' [Hh Hfr]]];
      [refine (Hset Exhausted _ (or_introl Hh))|refine (Hset fr' _ (or_intror (conj Hh Hfr)))].
Qed.

Lemma call_py_forward f a w :
  nonneg_delays w ->
  schedules_forward (call_py tick) f a w /\ nonneg_delays (call_py tick f a w).2.
Proof.
  intros Hnn.
  assert (Hraise : call_py tick f a w = (Raise, w) ->
                   schedules_forward (call_py tick) f a w /\ nonneg_delays (call_py tick f a w).2).
  { intros E. split; [|now rewrite E].
    apply schedules_forward_intro with (new := []); [|constructor].
    now rewrite E, app_nil_r. }
  destruct f as [coro|future].
  - destruct a as [|v [|]]; try (apply Hraise; reflexivity).
    destruct (call_py_send coro v w) as [E|E]; [now apply Hraise|].
    destruct (coro_send_forward coro w Hnn) as [new [Hr [Hf Hh]]].
    rewrite <- E in Hr, Hh.
    split; [|exact Hh].
    now apply schedules_forward_intro with (new := new).
  - destruct a as [|v [|]]; try (apply Hraise; reflexivity).
    cbn [call_py].
    destruct (set_result_forward future v w) as [new [Hr [Hf Hh]]].
    split.
    + now apply schedules_forward_intro with (new := new).
    + unfold nonneg_delays. cbn. rewrite Hh. exact Hnn.
Qed.

(** Every execution of [run] on the callables of the source is punctual when
    no [sleep] was given a negative delay. *)
Lemma punctual_py fuel coros w :
  nonneg_delays w ->
  punctual tick (call_py tick) fuel (seed tick BoundSend coros w) [].
Proof.
  intros Hnn.
  apply (punctual_of_forward tick (call_py tick)
           (fun h => forall c d r, h !! c = Some (SleepEntry d r) -> 0 <= d)).
  - intros f a w' Hw'. exact (call_py_forward f a w' Hw').
  - assert (Hseed : heap (seed tick BoundSend coros w) = heap w).
    { unfold seed. revert w Hnn. induction coros as [|c cs IH]; intros w Hnn; [done|].
      cbn [foldl]. rewrite IH; [done|exact Hnn]. }
    rewrite Hseed. exact Hnn.
Qed.

(** So [run] on generators of the source executes events by non-decreasing
    [when] as long as no [sleep] was given a negative delay. *)
Lemma run_py_in_when_order fuel coros w :
  nonneg_delays w ->
  Sorted Z.le (when <$> executed (run_py tick fuel coros w)).
Proof.
  intros Hnn. unfold run_py, run.
  destruct (length coros <=? 0)%nat; [constructor|].
  destruct (lower_bound_exists (registry (seed tick BoundSend coros w))) as [b Hb].
  apply StronglySorted_Sorted.
  now apply (run_loop_order tick (call_py tick) fuel _ [] b (punctual_py fuel coros w Hnn) Hb).
Qed.

End SourceFacts.

(** ** The code on concrete inputs *)

(** C1, counterexample: a cancelled Future is completed by a later
    [set_result], and a completed one is cancelled by a later [cancel]: a
    terminal status is followed by the other one. *)
Lemma terminal_status_overwritten :
  status_of 0 (cancel 0 one_future) = Some CANCELLED /\
  status_of 0 (set_result 1 0 (VInt 1) (cancel 0 one_future)) = Some DONE /\
  status_of 0 (set_result 1 0 (VInt 1) one_future) = Some DONE /\
  status_of 0 (cancel 0 (set_result 1 0 (VInt 1) one_future)) = Some CANCELLED /\
  ~ (forall op : FutureCall PyFn,
       status_of 0 (apply_call 1 0 op (cancel 0 one_future)) =
       status_of 0 (cancel 0 one_future)).
Proof.
  repeat split. intros H. specialize (H (CallSetResult (VInt 1))). discriminate H.
Qed.

Lemma status_follows_last_call_witness :
  futures one_future !! 0%nat = Some (mkFuture [] SCHEDULED None) /\
  status_of 0 (apply_calls 1 0 [CallCancel; CallSetResult (VInt 1)] one_future) =
    Some DONE.
Proof.
  split; [reflexivity|].
  apply (status_follows_last_call 1 one_future 0 (mkFuture [] SCHEDULED None)
           [CallCancel; CallSetResult (VInt 1)]).
  reflexivity.
Defined.

(** C2, counterexample: [run()] does not return an empty list. *)
Lemma run_nothing_returns_none :
  outcome (run_py 1 10 [] (startup 0)) <> Completed (RList []).
Proof. discriminate. Qed.

(** C3 at [run(g())] with [def g(): yield 5]: the event of [g.send] is due
    and executed, the step returns the plain value 5 without raising, and
    [run] returns the empty list: 5 was not appended. *)
Theorem plain_value_is_dropped :
  executed (yield_five 10) = [mkEvent (mkCallback (BoundSend 0) [VNone]) 0] /\
  (coro_send 1 0 (yielder [VInt 5] (startup 0)).2).1 = Return (VInt 5) /\
  outcome (yield_five 10) = Completed (RList []) /\
  (forall (e : Event PyFn) n (w : PyWorld) results,
     settle e (VInt n) w results = (w, results)).
Proof. repeat split. Qed.

(** C4, counterexample: after [set_result(5)] then [cancel()] the status is
    CANCELLED and [result] still yields 5. *)
Lemma cancelled_future_has_result :
  futures (cancel 0 (set_result 1 0 (VInt 5) one_future)) !! 0%nat =
    Some (mkFuture [] CANCELLED (Some (VInt 5))) /\
  result (mkFuture (Fn := PyFn) [] CANCELLED (Some (VInt 5))) = VInt 5 /\
  ~ (result (mkFuture (Fn := PyFn) [] CANCELLED (Some (VInt 5))) <> VNone <->
     status (mkFuture (Fn := PyFn) [] CANCELLED (Some (VInt 5))) = DONE).
Proof.
  split; [reflexivity|]. split; [reflexivity|].
  intros [H _]. cbn in H. discriminate H. discriminate.
Qed.

Lemma result_is_last_set_result_witness :
  futures one_future !! 0%nat = Some (mkFuture [] SCHEDULED None) /\
  exists f',
    futures (apply_calls 1 0 [CallSetResult (VInt 5); CallCancel] one_future) !! 0%nat
      = Some f' /\
    result f' = VInt 5 /\
    (status f' = SCHEDULED -> result f' = VNone) /\
    (status f' = DONE ->
       exists v, last_set_result (Fn := PyFn) [CallSetResult (VInt 5); CallCancel] = Some v /\
                 result f' = v).
Proof.
  split; [reflexivity|].
  apply (result_is_last_set_result 1 one_future 0 (mkFuture [] SCHEDULED None)
           [CallSetResult (VInt 5); CallCancel]); reflexivity.
Defined.

Lemma set_result_schedules_registered_witness :
  status_of 0 armed_future = Some SCHEDULED /\
  registry (set_result 1 0 (VInt 7) armed_future) =
    [mkEvent (mkCallback (BoundSend 3) [VNone]) 0;
     mkEvent (mkCallback (BoundSend 7) [VNone]) 1].
Proof.
  split; [reflexivity|].
  apply (set_result_schedules_registered 1 armed_future 0
           (mkFuture [mkCallback (BoundSend 3) [VNone]; mkCallback (BoundSend 7) [VNone]]
                     SCHEDULED None) (VInt 7)); reflexivity.
Defined.

Lemma iter_outcome_by_status_witness :
  futures one_future !! 0%nat = Some (mkFuture [] SCHEDULED None) /\
  __iter__ 0 one_future = Yielded (VFuture 0) /\
  futures (set_result 1 0 (VInt 7) one_future) !! 0%nat =
    Some (mkFuture [] DONE (Some (VInt 7))) /\
  __iter__ 0 (set_result 1 0 (VInt 7) one_future) = Returned (VInt 7) /\
  futures (cancel 0 one_future) !! 0%nat = Some (mkFuture [] CANCELLED None) /\
  __iter__ 0 (cancel 0 one_future) = Returned VNone.
Proof.
  split; [reflexivity|].
  split.
  { apply (iter_outcome_by_status 1 one_future 0 (mkFuture [] SCHEDULED None));
      reflexivity. }
  split; [reflexivity|].
  split.
  { apply (proj1 (iter_outcome_by_status 1 (set_result 1 0 (VInt 7) one_future) 0
                    (mkFuture [] DONE (Some (VInt 7))) eq_refl));
      reflexivity. }
  split; [reflexivity|].
  apply (iter_outcome_by_status 1 (cancel 0 one_future) 0 (mkFuture [] CANCELLED None));
    reflexivity.
Defined.

Lemma cancel_only_sets_status_witness :
  futures armed_future !! 0%nat =
    Some (mkFuture [mkCallback (BoundSend 3) [VNone]; mkCallback (BoundSend 7) [VNone]]
                   SCHEDULED None) /\
  result <$> futures (cancel 0 (set_result 1 0 (VInt 7) armed_future)) !! 0%nat =
    Some (VInt 7).
Proof.
  split; [reflexivity|].
  apply (cancel_only_sets_status 1 armed_future 0
           (mkFuture [mkCallback (BoundSend 3) [VNone]; mkCallback (BoundSend 7) [VNone]]
                     SCHEDULED None) (VInt 7)).
  reflexivity.
Defined.

Lemma late_callback_never_scheduled_witness :
  futures one_future !! 0%nat = Some (mkFuture [] SCHEDULED None) /\
  exists new,
    registry (apply_calls 1 0
                ([CallAddDoneCallback (mkCallback (BoundSend 3) [VNone])] ++
                 CallSetResult (VInt 7) ::
                 [CallAddDoneCallback (mkCallback (BoundSend 7) [VNone])]) one_future)
      = registry one_future ++ new /\
    callback <$> new = [mkCallback (BoundSend 3) [VNone]] /\
    (forall c, c ∈ [mkCallback (BoundSend 7) [VNone]] ->
               c ∉ [mkCallback (BoundSend 3) [VNone]] -> c ∉ callback <$> new).
Proof.
  split; [reflexivity|].
  apply (late_callback_never_scheduled 1 one_future 0 (mkFuture [] SCHEDULED None)
           [CallAddDoneCallback (mkCallback (BoundSend 3) [VNone])] (VInt 7)
           [CallAddDoneCallback (mkCallback (BoundSend 7) [VNone])]); reflexivity.
Defined.

Lemma done_iff_not_scheduled_witness :
  futures one_future !! 0%nat = Some (mkFuture [] SCHEDULED None) /\
  (fun g => (done g, _result g)) <$> futures (cancel 0 one_future) !! 0%nat =
    Some (true, None).
Proof.
  split; [reflexivity|].
  apply (done_iff_not_scheduled 1 one_future 0 (mkFuture [] SCHEDULED None) VNone);
    reflexivity.
Defined.



(** * Further properties of the code *)

(** ** One pass of the loop *)

Section PassFacts.

Context {Fn Heap : Type}.
Variable tick : N.
Variable call : Fn -> list value -> World Fn Heap -> Outcome * World Fn Heap.

Implicit Types (w : World Fn Heap) (e : Event Fn) (results : list value).

(** Everything a pass does, case by case. *)
Lemma loop_body_inv w results :
  match loop_body tick call w results with
  | Executed e w' results' =>
      exists rest out v w3 y tl,
        sort_by_when (registry w) = e :: rest /\
        when e <= clock w /\
        call (fn (callback e)) (args (callback e)) (at_call tick w) = (out, w3) /\
        (out = Return v \/ out = StopIteration v) /\
        registry w3 = y :: tl /\
        w' = set_events tl (settle e v w3 results).1 /\
        results' = (settle e v w3 results).2
  | Blocked w' =>
      exists e rest,
        sort_by_when (registry w) = e :: rest /\
        clock w < when e /\
        w' = time_sleep
               (timedelta_seconds (when e - (clock w + 2 * Z.of_N tick)) * 1000000 + 500000)
               (set_clock (clock w + 3 * Z.of_N tick) (set_events (e :: rest) w))
  | Aborted _ => True
  end.
Proof.
  unfold loop_body, at_call. cbn -[sort_by_when].
  destruct (sort_by_when (registry w)) as [|x rest]; [exact I|].
  destruct (Z.leb_spec (when x) (clock w)) as [Hle|Hgt].
  - set (w2 := set_clock (clock w + Z.of_N tick) (set_events (x :: rest) w)).
    destruct (call (fn (callback x)) (args (callback x)) w2) as [out w3] eqn:Hc.
    destruct out as [v|v|]; [| |exact I];
      (pose proof (settle_registry x v w3 results) as Hreg;
       destruct (settle x v w3 results) as [w4 r4] eqn:Hs; cbn in Hreg;
       destruct (registry w4) as [|y tl] eqn:H4; [exact I|];
       eexists rest, _, v, w3, y, tl; rewrite Hs; cbn;
       split; [reflexivity|]; split; [exact Hle|]; split; [exact Hc|];
       split; [auto|]; split; [now rewrite <- Hreg|]; split; reflexivity).
  - exists x, rest. split; [reflexivity|]. split; [exact Hgt|].
    unfold time_sleep, set_clock, set_events. cbn. f_equal.
    replace (clock w + Z.of_N tick + Z.of_N tick) with (clock w + 2 * Z.of_N tick) by lia.
    lia.
Qed.

Lemma timedelta_seconds_range d : 0 <= timedelta_seconds d <= 86399.
Proof.
  unfold timedelta_seconds.
  pose proof (Z.mod_pos_bound d 86400000000 ltac:(lia)) as Hm.
  split.
  - apply Z.div_pos; lia.
  - assert (d mod 86400000000 / 1000000 < 86400); [|lia].
    apply Z.div_lt_upper_bound; lia.
Qed.

Lemma sorted_head_least e rest (l : list (Event Fn)) :
  sort_by_when l = e :: rest ->
  e ∈ l /\ forall x, x ∈ l -> when e <= when x.
Proof.
  intros Hs.
  pose proof (sort_by_when_perm l) as Hp. rewrite Hs in Hp.
  pose proof (sort_by_when_sorted l) as Hsorted. rewrite Hs in Hsorted.
  apply StronglySorted_inv in Hsorted as [_ Hhd].
  split.
  - rewrite <- Hp. now left.
  - intros x Hx. rewrite <- Hp in Hx.
    apply elem_of_cons in Hx as [->|Hx]; [lia|].
    rewrite Forall_forall in Hhd. now apply Hhd.
Qed.

(** X1.  A pass only ever invokes the callback of an event that is due, and
    that event has the earliest [when] of the whole registry: no event is
    executed before its time or ahead of an earlier one. *)
Theorem executed_event_is_due_and_earliest w results e w' results' :
  loop_body tick call w results = Executed e w' results' ->
  when e <= clock w /\
  e ∈ registry w /\
  (forall x, x ∈ registry w -> when e <= when x).
Proof.
  intros Hb. pose proof (loop_body_inv w results) as Hinv. rewrite Hb in Hinv.
  destruct Hinv as (rest & out & v & w3 & y & tl & Hs & Hdue & _).
  split; [exact Hdue|]. exact (sorted_head_least _ _ _ Hs).
Qed.

(** X2.  A pass that finds no event due changes nothing but the order of the
    registry and the clock: it sorts the registry, leaves every Future and
    the heap alone, and blocks the process for at least half a second and at
    most 86399.5 seconds (never a negative time); it happens only when every
    pending event is due strictly later than now. *)
Theorem blocked_pass_only_waits w results w' :
  loop_body tick call w results = Blocked w' ->
  registry w' = sort_by_when (registry w) /\
  futures w' = futures w /\
  heap w' = heap w /\
  clock w + 3 * Z.of_N tick + 500000 <= clock w' <= clock w + 3 * Z.of_N tick + 86399500000 /\
  (forall x, x ∈ registry w -> clock w < when x).
Proof.
  intros Hb. pose proof (loop_body_inv w results) as Hinv. rewrite Hb in Hinv.
  destruct Hinv as (e & rest & Hs & Hlate & ->).
  destruct (sorted_head_least _ _ _ Hs) as [_ Hmin].
  pose proof (timedelta_seconds_range (when e - (clock w + 2 * Z.of_N tick))) as Hr.
  cbn -[sort_by_when]. rewrite Hs.
  repeat split; try lia.
  intros x Hx. specialize (Hmin x Hx). lia.
Qed.

(** X3.  When the earliest event is due within a day, the process wakes from
    the blocking wait within half a second of the event's time (one clock
    read apart): at most 499999 microseconds early, at most half a second
    late. *)
Theorem blocked_pass_wakes_near_due_time w results w' e rest :
  loop_body tick call w results = Blocked w' ->
  sort_by_when (registry w) = e :: rest ->
  clock w + 2 * Z.of_N tick <= when e ->
  when e < clock w + 2 * Z.of_N tick + 86400000000 ->
  when e + Z.of_N tick - 499999 <= clock w' <= when e + Z.of_N tick + 500000.
Proof.
  intros Hb Hs Hlo Hhi. pose proof (loop_body_inv w results) as Hinv. rewrite Hb in Hinv.
  destruct Hinv as (e' & rest' & Hs' & Hlate & ->).
  rewrite Hs in Hs'. injection Hs' as <- <-.
  cbn. unfold timedelta_seconds.
  set (d := when e - (clock w + 2 * Z.of_N tick)).
  assert (Hd : 0 <= d < 86400000000) by (unfold d; lia).
  rewrite (Z.mod_small d 86400000000 Hd).
  pose proof (Z.div_mod d 1000000 ltac:(lia)) as Hdm.
  pose proof (Z.mod_pos_bound d 1000000 ltac:(lia)) as Hm.
  unfold d in *. lia.
Qed.

(** X4.  When the earliest event was not due at the check of line 98 but its
    time has passed when line 116 reads the clock again (clock reads taking
    at most half a second), the seconds field of the negative difference is
    86399: the process blocks for 86399.5 seconds although the event is
    already due. *)
Theorem overdue_at_second_read_sleeps_a_day w results w' e rest :
  loop_body tick call w results = Blocked w' ->
  sort_by_when (registry w) = e :: rest ->
  when e < clock w + 2 * Z.of_N tick ->
  2 * Z.of_N tick <= 1000000 ->
  clock w' = clock w + 3 * Z.of_N tick + 86399500000.
Proof.
  intros Hb Hs Hover Htick. pose proof (loop_body_inv w results) as Hinv. rewrite Hb in Hinv.
  destruct Hinv as (e' & rest' & Hs' & Hlate & ->).
  rewrite Hs in Hs'. injection Hs' as <- <-.
  cbn. unfold timedelta_seconds.
  set (d := when e - (clock w + 2 * Z.of_N tick)).
  assert (Hd : -1000000 <= d < 0) by (unfold d; lia).
  assert (Hmod : d mod 86400000000 = d + 86400000000).
  { symmetry. apply (Z.mod_unique d 86400000000 (-1)); lia. }
  rewrite Hmod.
  assert (Hdiv : (d + 86400000000) / 1000000 = 86399).
  { symmetry. apply (Z.div_unique (d + 86400000000) 1000000 86399 (d + 1000000)); lia. }
  rewrite Hdiv. lia.
Qed.


End PassFacts.

(** ** What [run] returns *)

Section ReturnFacts.

Context {Fn Heap : Type}.
Variable tick : N.
Variable call : Fn -> list value -> World Fn Heap -> Outcome * World Fn Heap.
Variable Generator : Type.
Variable send : Generator -> Fn.

Implicit Types (w : World Fn Heap) (e : Event Fn) (results : list value).

Lemma loop_body_results w results e w' results' :
  loop_body tick call w results = Executed e w' results' ->
  results' = results \/ results' = results ++ [VNone].
Proof.
  intros Hb. pose proof (loop_body_inv tick call w results) as Hinv. rewrite Hb in Hinv.
  destruct Hinv as (rest & out & v & w3 & y & tl & _ & _ & _ & _ & _ & _ & ->).
  destruct v; cbn; auto.
Qed.

(** The loop ends by returning only with the registry empty, and what it
    returns is the list it started with, followed by at most one None per
    executed event. *)
Lemma run_loop_returns fuel : forall w results r,
  outcome (run_loop tick call fuel w results) = Completed r ->
  exists extra,
    r = RList (results ++ extra) /\
    Forall (fun v => v = VNone) extra /\
    (length extra <= length (executed (run_loop tick call fuel w results)))%nat /\
    registry (final (run_loop tick call fuel w results)) = [].
Proof.
  induction fuel as [|n IH]; intros w results r; cbn [run_loop].
  - destruct (registry w) as [|x0 l0] eqn:Hw; cbn [outcome executed final]; [|discriminate].
    intros [= <-]. exists []. rewrite app_nil_r.
    split; [done|]. split; [constructor|]. split; [cbn; lia|exact Hw].
  - destruct (registry w) as [|x0 l0] eqn:Hw; cbn [outcome executed final].
    { intros [= <-]. exists []. rewrite app_nil_r.
      split; [done|]. split; [constructor|]. split; [cbn; lia|exact Hw]. }
    destruct (loop_body tick call w results) as [e w' results'|w'|w'] eqn:Hb;
      cbn [outcome executed final].
    + intros Hr. destruct (IH _ _ _ Hr) as (extra & -> & Hnone & Hlen & Hreg).
      destruct (loop_body_results _ _ _ _ _ Hb) as [->| ->].
      * exists extra. repeat split; auto. cbn [length]. lia.
      * exists (VNone :: extra). rewrite <- app_assoc. repeat split; auto.
        cbn [length]. lia.
    + apply IH.
    + discriminate.
Qed.

(** X6.  Whatever the computations do, the list [run] returns holds nothing
    but None: at most one None for each event it executed, and never a value
    a computation produced. *)
Theorem run_returns_only_none fuel coros w l :
  outcome (run tick call send fuel coros w) = Completed (RList l) ->
  Forall (fun v => v = VNone) l /\
  (length l <= length (executed (run tick call send fuel coros w)))%nat.
Proof.
  unfold run. destruct (length coros <=? 0)%nat; [discriminate|].
  intros Hr. destruct (run_loop_returns _ _ _ _ Hr) as (extra & [= ->] & Hnone & Hlen & _).
  now split.
Qed.

(** X7.  Given at least one computation, [run] returns a list, never None,
    and it returns only once the registry of the loop is empty: nothing a
    computation scheduled is left pending. *)
Theorem run_returns_with_registry_drained fuel coros w r :
  coros <> [] ->
  outcome (run tick call send fuel coros w) = Completed r ->
  (exists l, r = RList l) /\
  registry (final (run tick call send fuel coros w)) = [].
Proof.
  intros Hne. unfold run. destruct coros as [|c cs]; [done|]. cbn [length Nat.leb].
  intros Hr. destruct (run_loop_returns _ _ _ _ Hr) as (extra & -> & _ & _ & Hreg).
  split; [eauto|exact Hreg].
Qed.

Lemma seed_spec coros w :
  seed tick send coros w =
  mkWorld
    (mkLoop (registry w ++
             soon_events tick (clock w)
               ((fun coro => mkCallback (send coro) [VNone]) <$> coros)))
    (futures w)
    (clock w + Z.of_nat (length coros) * Z.of_N tick)
    (heap w).
Proof.
  assert (H : seed tick send coros w =
              foldl (fun w' c => call_soon tick c w') w
                    ((fun coro => mkCallback (send coro) [VNone]) <$> coros)).
  { unfold seed. revert w. induction coros as [|c cs IH]; intros w; [done|]. apply IH. }
  rewrite H, schedule_all_spec. now rewrite length_fmap.
Qed.

(** X8.  Before it executes anything, [run] schedules one event per
    computation, in argument order, behind the events already pending: the
    callback is the computation's [send] with the single argument None, the
    time is the clock read when it is scheduled.  It touches no Future and
    nothing in the heap. *)
Theorem run_seeds_in_argument_order coros w :
  registry (seed tick send coros w) =
    registry w ++
    soon_events tick (clock w) ((fun coro => mkCallback (send coro) [VNone]) <$> coros) /\
  futures (seed tick send coros w) = futures w /\
  heap (seed tick send coros w) = heap w /\
  clock (seed tick send coros w) = clock w + Z.of_nat (length coros) * Z.of_N tick.
Proof. rewrite seed_spec. now repeat split. Qed.

End ReturnFacts.

(** ** Futures, several at a time and over several calls *)

Section FutureMore.

Context {Fn Heap : Type}.
Variable tick : N.

Implicit Types (w : World Fn Heap) (f : Future Fn) (c : Callback Fn).
Implicit Types (op : FutureCall Fn) (ops : list (FutureCall Fn)).

Lemma apply_call_frame self op w other :
  other <> self ->
  futures (apply_call tick self op w) !! other = futures w !! other /\
  length (futures (apply_call tick self op w)) = length (futures w) /\
  heap (apply_call tick self op w) = heap w.
Proof.
  intros Hne. destruct (futures w !! self) as [f|] eqn:H.
  - destruct op as [v| |c]; cbn [apply_call].
    + rewrite (set_result_spec _ _ _ _ _ H). cbn.
      rewrite length_insert. split; [now apply list_lookup_insert_ne|done].
    + rewrite (cancel_spec _ _ _ H). cbn.
      rewrite length_insert. split; [now apply list_lookup_insert_ne|done].
    + rewrite (add_done_callback_spec _ _ _ _ H). cbn.
      rewrite length_insert. split; [now apply list_lookup_insert_ne|done].
  - destruct op as [v| |c]; cbn [apply_call];
      unfold set_result, cancel, add_done_callback, _schedule_callbacks, update_future; cbn;
      rewrite ?list_lookup_alter_eq, ?H; cbn;
      rewrite ?length_alter, ?list_lookup_alter_ne by done; done.
Qed.

(** X9.  Futures are independent objects: whatever sequence of
    [set_result], [cancel] and [add_done_callback] calls is made on one
    Future, every other Future keeps its status, result and callbacks, no
    Future is created or lost, and the heap is untouched. *)
Theorem calls_leave_other_futures_alone self ops w other :
  other <> self ->
  futures (apply_calls tick self ops w) !! other = futures w !! other /\
  length (futures (apply_calls tick self ops w)) = length (futures w) /\
  heap (apply_calls tick self ops w) = heap w.
Proof.
  intros Hne. revert w. induction ops as [|op ops IH]; intros w; [done|].
  cbn [apply_calls foldl].
  destruct (apply_call_frame self op w other Hne) as (H1 & H2 & H3).
  destruct (IH (apply_call tick self op w)) as (I1 & I2 & I3).
  unfold apply_calls in *. rewrite I1, I2, I3. done.
Qed.

(** X10.  [set_result] does not clear the callbacks it schedules: called a
    second time on the same Future it replaces the result and schedules
    every registered callback once more, behind the events of the first
    call. *)
Theorem set_result_again_schedules_again self v1 v2 w f :
  futures w !! self = Some f ->
  futures (set_result tick self v2 (set_result tick self v1 w)) !! self =
    Some (mkFuture (callbacks f) DONE (Some v2)) /\
  registry (set_result tick self v2 (set_result tick self v1 w)) =
    registry w ++
    soon_events tick (clock w) (callbacks f) ++
    soon_events tick (clock w + Z.of_nat (length (callbacks f)) * Z.of_N tick) (callbacks f).
Proof.
  intros H.
  assert (H1 : futures (set_result tick self v1 w) !! self =
               Some (mkFuture (callbacks f) DONE (Some v1))).
  { rewrite (set_result_spec _ _ _ _ _ H). cbn. eapply lookup_insert_hit, H. }
  rewrite (set_result_spec _ _ _ _ _ H1). cbn.
  rewrite (set_result_spec _ _ _ _ _ H). cbn. unfold registry. cbn.
  split.
  - rewrite list_insert_insert_eq. eapply lookup_insert_hit, H.
  - now rewrite <- app_assoc.
Qed.

(** X11.  A step that returns a Future is resumed by the completion of that
    Future: [run] appends nothing to its results and nothing to the
    registry, and the next [set_result] on the Future schedules the
    callbacks registered earlier and then, last, the same callback (same
    function, same arguments) as the event that was executed. *)
Theorem suspended_step_resumes_on_completion (e : Event Fn) w results fut f v :
  futures w !! fut = Some f ->
  (settle e (VFuture fut) w results).2 = results /\
  registry (settle e (VFuture fut) w results).1 = registry w /\
  registry (set_result tick fut v (settle e (VFuture fut) w results).1) =
    registry w ++
    soon_events tick (clock w)
      (callbacks f ++ [mkCallback (fn (callback e)) (args (callback e))]).
Proof.
  intros H. cbn [settle fst snd].
  split; [reflexivity|]. split; [reflexivity|].
  assert (H1 : futures (add_done_callback fut
                          (mkCallback (fn (callback e)) (args (callback e))) w) !! fut =
               Some (mkFuture (callbacks f ++ [mkCallback (fn (callback e)) (args (callback e))])
                              (status f) (_result f))).
  { rewrite (add_done_callback_spec _ _ _ _ H). cbn. eapply lookup_insert_hit, H. }
  rewrite (set_result_spec _ _ _ _ _ H1). cbn.
  now rewrite (add_done_callback_spec _ _ _ _ H).
Qed.

(** X12.  Awaiting a Future suspends exactly when [done()] is false: the
    first step of [__iter__] yields if and only if the Future is not done,
    and then what it yields is the Future itself. *)
Theorem iter_suspends_iff_not_done self w f :
  futures w !! self = Some f ->
  ((exists v, __iter__ self w = Yielded v) <-> done f = false) /\
  (forall v, __iter__ self w = Yielded v -> v = VFuture self).
Proof.
  intros H. unfold __iter__, done. rewrite H.
  destruct (status f); cbn; split; try split; try done.
  - intros [v Hv]. discriminate.
  - eauto.
  - intros v [= <-]. reflexivity.
  - intros [v Hv]. discriminate.
Qed.

(** X13.  [create_future] returns a reference no existing Future has; the
    new Future is SCHEDULED, not done, has no callback and reads None as its
    result; every Future that existed is unchanged, and so are the registry,
    the clock and the heap. *)
Theorem create_future_is_fresh w :
  futures w !! (create_future w).1 = None /\
  futures (create_future w).2 !! (create_future w).1 = Some (mkFuture [] SCHEDULED None) /\
  done (mkFuture (Fn := Fn) [] SCHEDULED None) = false /\
  result (mkFuture (Fn := Fn) [] SCHEDULED None) = VNone /\
  (forall other f, futures w !! other = Some f ->
                   futures (create_future w).2 !! other = Some f) /\
  registry (create_future w).2 = registry w /\
  clock (create_future w).2 = clock w /\
  heap (create_future w).2 = heap w.
Proof.
  cbn. split; [now apply lookup_ge_None_2|].
  split; [now apply list_lookup_middle|].
  repeat split.
  intros other f H. rewrite lookup_app_l; [exact H|]. eapply lookup_lt_Some, H.
Qed.

End FutureMore.

(** ** The generator [sleep] *)

Section SleepFacts.

Variable tick : N.

Implicit Types (w : PyWorld).

(** X14.  Calling [sleep(delay, result)] does nothing but create the
    generator object.  Its first advance creates one new Future and reads
    the clock; when the delay and the time it leads to are in range, it
    schedules exactly one event, [set_result(result)] on that Future [delay]
    seconds after the clock read, and suspends on that Future, also when the
    delay is zero or negative; otherwise line 128 raises OverflowError,
    nothing is scheduled and the generator is finished. *)
Theorem sleep_is_lazy_then_suspends delay result_ w :
  registry (sleep delay result_ w).2 = registry w /\
  futures (sleep delay result_ w).2 = futures w /\
  clock (sleep delay result_ w).2 = clock w /\
  (timedelta_ok delay && datetime_ok (clock w + delay * 1000000) = true ->
   coro_send tick (sleep delay result_ w).1 (sleep delay result_ w).2 =
   (Return (VFuture (length (futures w))),
    mkWorld
      (mkLoop (registry w ++
               [mkEvent (mkCallback (BoundSetResult (length (futures w))) [result_])
                        (clock w + delay * 1000000)]))
      (futures w ++ [mkFuture [] SCHEDULED None])
      (clock w + Z.of_N tick)
      (heap w ++ [SleepAwait (length (futures w))]))) /\
  (timedelta_ok delay && datetime_ok (clock w + delay * 1000000) = false ->
   coro_send tick (sleep delay result_ w).1 (sleep delay result_ w).2 =
   (Raise,
    mkWorld (current_loop w)
      (futures w ++ [mkFuture [] SCHEDULED None])
      (clock w + Z.of_N tick)
      (heap w ++ [Exhausted]))).
Proof.
  assert (Hfr : heap (sleep delay result_ w).2 !! (sleep delay result_ w).1 =
                Some (SleepEntry delay result_))
    by (cbn; now apply list_lookup_middle).
  repeat split.
  - intros Hok. rewrite (coro_send_entry tick _ delay result_ _ Hfr Hok).
    cbn. f_equal. f_equal.
    rewrite insert_app_r_alt by done. now rewrite Nat.sub_diag.
  - intros Hok. rewrite (coro_send_overflow tick _ delay result_ _ Hfr Hok).
    cbn. f_equal. f_equal.
    rewrite insert_app_r_alt by done. now rewrite Nat.sub_diag.
Qed.

(** X15.  The steps of a [sleep] whose delay, and the time it leads to, are
    in range: its first step returns a new Future; once the continuation has
    been registered as [run] does and the scheduled [set_result(result)] has
    been called, the continuation is in the registry, once; resuming the
    generator then ends it with the completion signal carrying [result], the
    Future being DONE; a further [send] raises the completion signal with
    None. *)
Theorem sleep_completes_with_its_result coro delay result_ w (e : Event PyFn) results :
  heap w !! coro = Some (SleepEntry delay result_) ->
  timedelta_ok delay && datetime_ok (clock w + delay * 1000000) = true ->
  callback e = mkCallback (BoundSend coro) [VNone] ->
  exists w1 w3 w4,
    coro_send tick coro w = (Return (VFuture (length (futures w))), w1) /\
    call_py tick (BoundSetResult (length (futures w))) [result_]
      (settle e (VFuture (length (futures w))) w1 results).1 = (Return VNone, w3) /\
    registry w3 =
      registry w ++
      [mkEvent (mkCallback (BoundSetResult (length (futures w))) [result_])
               (clock w + delay * 1000000);
       mkEvent (mkCallback (BoundSend coro) [VNone]) (clock w + Z.of_N tick)] /\
    call_py tick (BoundSend coro) [VNone] w3 = (StopIteration result_, w4) /\
    status_of (length (futures w)) w4 = Some DONE /\
    heap w4 !! coro = Some Exhausted /\
    call_py tick (BoundSend coro) [VNone] w4 = (StopIteration VNone, w4).
Proof.
  intros H Hok He.
  pose proof (lookup_lt_Some _ _ _ H) as Hlt.
  pose proof (coro_send_entry tick _ _ _ _ H Hok) as E1.
  set (fut := length (futures w)) in *.
  set (cb := mkCallback (BoundSend coro) [VNone]) in *.
  set (w1 := mkWorld _ _ _ _) in E1.
  assert (H1 : futures w1 !! fut = Some (mkFuture [] SCHEDULED None))
    by (cbn; now apply list_lookup_middle).
  assert (E2 : (settle e (VFuture fut) w1 results).1 =
               mkWorld (current_loop w1)
                       (<[fut := mkFuture [cb] SCHEDULED None]> (futures w1))
                       (clock w1) (heap w1)).
  { cbn [settle fst]. rewrite He. cbn [fn args].
    now rewrite (add_done_callback_spec _ _ _ _ H1). }
  set (w2 := mkWorld _ _ _ _) in E2.
  assert (H2 : futures w2 !! fut = Some (mkFuture [cb] SCHEDULED None))
    by (cbn; eapply lookup_insert_hit, H1).
  assert (E3 : call_py tick (BoundSetResult fut) [result_] w2 =
               (Return VNone,
                mkWorld (mkLoop (registry w2 ++ soon_events tick (clock w2) [cb]))
                        (<[fut := mkFuture [cb] DONE (Some result_)]> (futures w2))
                        (clock w2 + Z.of_nat 1 * Z.of_N tick) (heap w2))).
  { cbn [call_py]. now rewrite (set_result_spec _ _ _ _ _ H2). }
  set (w3 := mkWorld _ _ _ _) in E3.
  assert (H3 : heap w3 !! coro = Some (SleepAwait fut))
    by (cbn; now apply list_lookup_insert_eq).
  assert (F3 : futures w3 !! fut = Some (mkFuture [cb] DONE (Some result_)))
    by (cbn -[w2]; eapply lookup_insert_hit, H2).
  assert (H4 : heap (set_frame coro Exhausted w3) !! coro = Some Exhausted).
  { cbn. rewrite list_insert_insert_eq. now apply list_lookup_insert_eq. }
  exists w1, w3, (set_frame coro Exhausted w3).
  rewrite E2.
  split; [exact E1|]. split; [exact E3|].
  split.
  { cbn. rewrite <- app_assoc. cbn. do 4 f_equal. lia. }
  split.
  { cbn [call_py]. unfold coro_send. rewrite H3. cbn [__iter___resume].
    unfold result_of. now rewrite F3. }
  split; [unfold status_of, set_frame; cbn -[w3]; now rewrite F3|].
  split; [exact H4|].
  cbn [call_py]. unfold coro_send. now rewrite H4.
Qed.

End SleepFacts.

(** ** [run] does not return early *)

Section WaitFacts.

Variable tick : N.

Implicit Types (w : PyWorld) (e : Event PyFn).

Lemma soon_events_callbacks {Fn} t (cs : list (Callback Fn)) :
  callback <$> soon_events tick t cs = cs.
Proof.
  unfold soon_events. rewrite fmap_imap. cbn.
  generalize 0%nat. induction cs as [|c l IH]; intros n; cbn; [done|].
  f_equal. apply (IH (S n)).
Qed.

Lemma alter_miss {A} (g : A -> A) (l : list A) i : l !! i = None -> alter g i l = l.
Proof.
  revert i. induction l as [|x l IH]; intros [|i] H; try done.
  cbn in *. f_equal. auto.
Qed.

Lemma set_result_appends fut v w :
  (exists new, registry (set_result tick fut v w) = registry w ++ new) /\
  clock w <= clock (set_result tick fut v w) /\
  heap (set_result tick fut v w) = heap w.
Proof.
  destruct (futures w !! fut) as [f|] eqn:H.
  - rewrite (set_result_spec _ _ _ _ _ H). cbn. split; [eauto|]. split; [nia|done].
  - unfold set_result, _schedule_callbacks, update_future. cbn.
    rewrite !(alter_miss _ _ _ H), H. cbn.
    split; [exists []; now rewrite app_nil_r|]. split; [lia|done].
Qed.

Lemma coro_send_appends coro w :
  (exists new, registry (coro_send tick coro w).2 = registry w ++ new) /\
  clock w <= clock (coro_send tick coro w).2.
Proof.
  destruct (heap w !! coro) as [fr|] eqn:Hc.
  2:{ destruct (coro_send_started tick coro w) as (Hr & _ & Hcl & _).
      { intros d r. rewrite Hc. discriminate. }
      rewrite Hr, Hcl. split; [exists []; now rewrite app_nil_r|lia]. }
  assert (Hfr : (exists d r, fr = SleepEntry d r) \/ forall d r, fr <> SleepEntry d r)
    by (destruct fr; eauto).
  destruct Hfr as [(delay & result_ & ->)|Hno].
  - destruct (timedelta_ok delay && datetime_ok (clock w + delay * 1000000)) eqn:Hok.
    + rewrite (coro_send_entry tick _ _ _ _ Hc Hok). cbn. split; [eauto|lia].
    + rewrite (coro_send_overflow tick _ _ _ _ Hc Hok). cbn.
      split; [exists []; now rewrite app_nil_r|lia].
  - destruct (coro_send_started tick coro w) as (Hr & _ & Hcl & _).
    { intros d r. rewrite Hc. intros [= ->]. now apply (Hno d r). }
    rewrite Hr, Hcl. split; [exists []; now rewrite app_nil_r|lia].
Qed.

(** Whatever is called, the registry is only appended to and the clock does
    not go back. *)
Lemma call_py_appends f a w :
  (exists new, registry (call_py tick f a w).2 = registry w ++ new) /\
  clock w <= clock (call_py tick f a w).2.
Proof.
  assert (Hsame : forall w' : PyWorld, registry w' = registry w -> clock w' = clock w ->
            (exists new, registry w' = registry w ++ new) /\ clock w <= clock w').
  { intros w' -> ->. split; [exists []; now rewrite app_nil_r|lia]. }
  destruct f as [coro|fut].
  - destruct a as [|v [|]]; try (now apply Hsame).
    destruct (call_py_send tick coro v w) as [-> | ->]; [now apply Hsame|].
    apply coro_send_appends.
  - destruct a as [|v [|]]; try (now apply Hsame). cbn [call_py snd].
    destruct (set_result_appends fut v w) as (Hr & Hc & _). now split.
Qed.

(** When the loop has ended, the time of every event that was pending has
    come. *)
Lemma run_loop_final_clock fuel : forall w results r,
  outcome (run_loop tick (call_py tick) fuel w results) = Completed r ->
  clock w <= clock (final (run_loop tick (call_py tick) fuel w results)) /\
  forall x, x ∈ registry w ->
            when x <= clock (final (run_loop tick (call_py tick) fuel w results)).
Proof.
  induction fuel as [|n IH]; intros w results r; cbn [run_loop].
  - destruct (registry w) as [|x0 l0] eqn:Hw; cbn [outcome final]; [|discriminate].
    intros _. split; [lia|]. intros x Hx. now apply elem_of_nil in Hx.
  - destruct (registry w) as [|x0 l0] eqn:Hw; cbn [outcome final].
    { intros _. split; [lia|]. intros x Hx. now apply elem_of_nil in Hx. }
    pose proof (loop_body_inv tick (call_py tick) w results) as Hinv.
    destruct (loop_body tick (call_py tick) w results) as [e w' results'|w'|w'] eqn:Hb;
      cbn [outcome final]; [| |discriminate].
    + intros Hr. destruct (IH _ _ _ Hr) as [IHc IHr].
      destruct Hinv as (rest & out & v & w3 & y & tl & Hs & Hdue & Hc & _ & Hreg & -> & _).
      destruct (call_py_appends (fn (callback e)) (args (callback e)) (at_call tick w))
        as [[new Hnew] Hclock].
      pose proof (eq_trans (eq_sym Hnew) (f_equal (fun p => registry p.2) Hc)) as Hw3.
      cbn [snd] in Hw3. rewrite at_call_registry, Hs, Hreg in Hw3. injection Hw3 as <- <-.
      rewrite Hc in Hclock. cbn [snd] in Hclock.
      assert (Hcw' : clock w <= clock (set_events (rest ++ new) (settle e v w3 results).1)).
      { assert (clock (settle e v w3 results).1 = clock w3) by (destruct v; reflexivity).
        cbn. rewrite at_call_clock in Hclock. lia. }
      split; [lia|].
      intros x Hx. rewrite <- Hw in Hx. rewrite <- (sort_by_when_perm (registry w)), Hs in Hx.
      apply elem_of_cons in Hx as [->|Hx]; [lia|].
      apply IHr. cbn. apply elem_of_app. now left.
    + intros Hr. destruct (IH _ _ _ Hr) as [IHc IHr].
      destruct Hinv as (e & rest & Hs & Hlate & ->).
      pose proof (timedelta_seconds_range (when e - (clock w + 2 * Z.of_N tick))) as Hrange.
      cbn in IHc. split; [lia|].
      intros x Hx. apply IHr. cbn. rewrite <- Hs, sort_by_when_perm, Hw. exact Hx.
Qed.

Lemma coro_send_other_frame coro c w :
  coro <> c ->
  heap (coro_send tick coro w).2 !! c = heap w !! c.
Proof.
  intros Hne. destruct (heap w !! coro) as [fr|] eqn:Hc.
  2:{ destruct (coro_send_started tick coro w) as (_ & _ & _ & Hh).
      { intros d r. rewrite Hc. discriminate. }
      destruct Hh as [->|[fr [-> _]]]; [done|now apply list_lookup_insert_ne]. }
  assert (Hfr : (exists d r, fr = SleepEntry d r) \/ forall d r, fr <> SleepEntry d r)
    by (destruct fr; eauto).
  destruct Hfr as [(delay & result_ & ->)|Hno].
  - destruct (timedelta_ok delay && datetime_ok (clock w + delay * 1000000)) eqn:Hok.
    + rewrite (coro_send_entry tick _ _ _ _ Hc Hok). cbn. now apply list_lookup_insert_ne.
    + rewrite (coro_send_overflow tick _ _ _ _ Hc Hok). cbn. now apply list_lookup_insert_ne.
  - destruct (coro_send_started tick coro w) as (_ & _ & _ & Hh).
    { intros d r. rewrite Hc. intros [= ->]. now apply (Hno d r). }
    destruct Hh as [->|[fr' [-> _]]]; [done|now apply list_lookup_insert_ne].
Qed.

(** Calling anything but the [send] of the generator [c] leaves the frame of
    [c] as it is. *)
Lemma call_py_other_frame f a w c :
  f <> BoundSend c ->
  heap (call_py tick f a w).2 !! c = heap w !! c.
Proof.
  intros Hne. destruct f as [coro|fut].
  - destruct a as [|v [|]]; try reflexivity.
    assert (Hc : coro <> c) by (intros ->; now apply Hne).
    destruct (call_py_send tick coro v w) as [-> | ->]; [reflexivity|].
    now apply coro_send_other_frame.
  - destruct a as [|v [|]]; try reflexivity. cbn [call_py snd].
    destruct (set_result_appends fut v w) as (_ & _ & ->). reflexivity.
Qed.

(** While a [sleep] generator that has not started has its [send] pending,
    the loop cannot end before the generator's delay has passed. *)
Lemma run_loop_waits fuel : forall w results r c delay result_ x,
  outcome (run_loop tick (call_py tick) fuel w results) = Completed r ->
  heap w !! c = Some (SleepEntry delay result_) ->
  x ∈ registry w ->
  callback x = mkCallback (BoundSend c) [VNone] ->
  clock w + delay * 1000000 <= clock (final (run_loop tick (call_py tick) fuel w results)).
Proof.
  induction fuel as [|n IH]; intros w results r c delay result_ x Hr Hfr Hx Hcb.
  - cbn [run_loop] in Hr. destruct (registry w) as [|x0 l0] eqn:Hw; [|discriminate].
    now apply elem_of_nil in Hx.
  - pose proof (run_loop_final_clock (S n) w results r Hr) as [_ Hfinal].
    cbn [run_loop] in *.
    destruct (registry w) as [|x0 l0] eqn:Hw; [now apply elem_of_nil in Hx|].
    pose proof (loop_body_inv tick (call_py tick) w results) as Hinv.
    destruct (loop_body tick (call_py tick) w results) as [e w' results'|w'|w'] eqn:Hb;
      cbn [outcome final] in *; [| |discriminate].
    + destruct Hinv as (rest & out & v & w3 & y & tl & Hs & Hdue & Hc & Hout & Hreg & -> & _).
      destruct (call_py_appends (fn (callback e)) (args (callback e)) (at_call tick w))
        as [[new Hnew] Hclock].
      rewrite Hc in Hclock. cbn [snd] in Hclock. rewrite at_call_clock in Hclock.
      pose proof (eq_trans (eq_sym Hnew) (f_equal (fun p => registry p.2) Hc)) as Hw3.
      cbn [snd] in Hw3. rewrite at_call_registry, Hs, Hreg in Hw3. injection Hw3 as <- <-.
      set (w' := set_events (rest ++ new) (settle e v w3 results).1) in *.
      assert (Hh' : heap w' = heap w3) by (destruct v; reflexivity).
      assert (Hc' : clock w' = clock w3) by (destruct v; reflexivity).
      assert (Hnr : out <> Raise) by (destruct Hout as [-> | ->]; discriminate).
      destruct (decide (fn (callback e) = BoundSend c)) as [He|He].
      * (* the sleep is advanced: it starts now, its wake-up is scheduled, and
           waited for *)
        rewrite He in Hc.
        assert (Hsend : coro_send tick c (at_call tick w) = (out, w3)).
        { destruct (args (callback e)) as [|v0 [|]];
            try (cbn [call_py] in Hc; injection Hc as <- _; now destruct Hnr).
          destruct (call_py_send tick c v0 (at_call tick w)) as [E|E].
          - rewrite E in Hc. injection Hc as <- _. now destruct Hnr.
          - now rewrite <- E. }
        destruct (timedelta_ok delay &&
                  datetime_ok (clock (at_call tick w) + delay * 1000000)) eqn:Hok.
        2:{ rewrite (coro_send_overflow tick c delay result_ (at_call tick w) Hfr Hok) in Hsend.
            injection Hsend as <- _. now destruct Hnr. }
        rewrite (coro_send_entry tick c delay result_ (at_call tick w) Hfr Hok) in Hsend.
        injection Hsend as _ <-.
        set (ev := mkEvent (mkCallback (BoundSetResult (length (futures (at_call tick w))))
                                       [result_])
                           (clock (at_call tick w) + delay * 1000000)) in *.
        assert (Hnew' : new = [ev]).
        { change (registry (at_call tick w) ++ [ev] = e :: rest ++ new) in Hreg.
          rewrite at_call_registry, Hs in Hreg. cbn [app] in Hreg.
          injection Hreg as Hreg. apply app_inv_head in Hreg. now symmetry. }
        pose proof (run_loop_final_clock n w' results' r Hr) as [_ Hev].
        specialize (Hev ev).
        assert (Hin : ev ∈ registry w').
        { change (ev ∈ rest ++ new). rewrite Hnew'. apply elem_of_app. right. now left. }
        specialize (Hev Hin). unfold ev in Hev. cbn [when] in Hev.
        rewrite at_call_clock in Hev. lia.
      * (* another callback runs: the generator still waits to be started *)
        assert (Hfr' : heap w' !! c = Some (SleepEntry delay result_)).
        { rewrite Hh', <- Hfr.
          pose proof (call_py_other_frame (fn (callback e)) (args (callback e))
                        (at_call tick w) c He) as Hof.
          rewrite Hc in Hof. exact Hof. }
        assert (Hx' : x ∈ registry w').
        { cbn. destruct v; cbn; apply elem_of_app; left;
            (rewrite <- Hw in Hx; rewrite <- (sort_by_when_perm (registry w)), Hs in Hx;
             apply elem_of_cons in Hx as [->|Hx];
             [rewrite Hcb in He; now destruct He|exact Hx]). }
        pose proof (IH w' results' r c delay result_ x Hr Hfr' Hx' Hcb). lia.
    + destruct Hinv as (e & rest & Hs & Hlate & ->).
      pose proof (timedelta_seconds_range (when e - (clock w + 2 * Z.of_N tick))) as Hrange.
      match type of Hr with outcome (run_loop _ _ _ ?W _) = _ =>
        pose proof (IH W results r c delay result_ x Hr Hfr) as Hih end.
      cbn in Hih.
      assert (Hx' : x ∈ e :: rest) by (rewrite <- Hs, sort_by_when_perm, Hw; exact Hx).
      specialize (Hih Hx' Hcb). cbn. lia.
Qed.

(** X17.  [run] does not return before the delay of any [sleep] it was given
    has passed: if a [sleep(delay, result)] that has not started is among
    the computations and [run] returns its list, the clock then reads at
    least [delay] seconds more than when [run] was called. *)
Theorem run_py_waits_for_every_sleep fuel coros w l c delay result_ :
  c ∈ coros ->
  heap w !! c = Some (SleepEntry delay result_) ->
  outcome (run_py tick fuel coros w) = Completed (RList l) ->
  clock w + delay * 1000000 <= clock (final (run_py tick fuel coros w)).
Proof.
  intros Hin Hfr. unfold run_py, run.
  destruct (length coros <=? 0)%nat; [discriminate|].
  intros Hr.
  assert (Hseed := seed_spec tick nat BoundSend coros w).
  assert (Hx : exists x, x ∈ registry (seed tick BoundSend coros w) /\
                         callback x = mkCallback (BoundSend c) [VNone]).
  { assert (Hcb : mkCallback (BoundSend c) [VNone] ∈
                  callback <$> soon_events tick (clock w)
                    ((fun coro => mkCallback (BoundSend coro) [VNone]) <$> coros)).
    { rewrite soon_events_callbacks.
      apply list_elem_of_fmap. exists c. now split. }
    apply list_elem_of_fmap in Hcb as (x & Hcx & Hxin).
    exists x. split; [|now symmetry].
    rewrite Hseed. cbn. apply elem_of_app. now right. }
  destruct Hx as (x & Hx & Hcb).
  assert (Hfr' : heap (seed tick BoundSend coros w) !! c = Some (SleepEntry delay result_))
    by (now rewrite Hseed).
  pose proof (run_loop_waits fuel _ _ _ _ _ _ _ Hr Hfr' Hx Hcb) as Hwait.
  rewrite Hseed in Hwait at 1. cbn [clock] in Hwait. lia.
Qed.

End WaitFacts.

(** ** The stable sort, in one statement *)

Section SortMore.

Context {Fn : Type}.

Implicit Types (l : list (Event Fn)).

Lemma sort_by_when_sorted_id l :
  StronglySorted (fun a b => when a <= when b) l -> sort_by_when l = l.
Proof.
  induction 1 as [|x r Hr IH Hx]; [done|].
  cbn [sort_by_when foldr]. fold (sort_by_when r). rewrite IH.
  destruct r as [|y r']; [done|]. cbn.
  apply Forall_cons in Hx as [Hxy _].
  destruct (Z.leb_spec (when x) (when y)); [done|lia].
Qed.

(** X18.  Sorting the registry keeps exactly the events it had, orders them
    by non-decreasing [when], keeps events with the same [when] in the
    order they had, and changes nothing in a registry that is already in
    order: re-sorting at every pass never reorders pending events. *)
Theorem sort_by_when_is_stable l :
  sort_by_when l ≡ₚ l /\
  StronglySorted (fun a b => when a <= when b) (sort_by_when l) /\
  (forall t, filter (fun y => when y = t) (sort_by_when l) =
             filter (fun y => when y = t) l) /\
  sort_by_when (sort_by_when l) = sort_by_when l.
Proof.
  split; [apply sort_by_when_perm|].
  split; [apply sort_by_when_sorted|].
  split; [intros t; apply sort_by_when_stable|].
  apply sort_by_when_sorted_id, sort_by_when_sorted.
Qed.

End SortMore.

(** ** The further properties on concrete inputs *)

Lemma executed_event_is_due_and_earliest_witness :
  exists e w' results',
    loop_body 1 (call_py 1) yield_seeded [] = Executed e w' results' /\
    when e <= clock yield_seeded.
Proof.
  eexists _, _, _. split; [vm_compute; reflexivity|].
  eapply (executed_event_is_due_and_earliest 1 (call_py 1) yield_seeded [] _ _ _).
  vm_compute. reflexivity.
Defined.

Lemma blocked_pass_only_waits_witness :
  exists w',
    loop_body 1 (call_py 1) waiting_world [] = Blocked w' /\
    registry w' = sort_by_when (registry waiting_world).
Proof.
  eexists. split; [vm_compute; reflexivity|].
  eapply (blocked_pass_only_waits 1 (call_py 1) waiting_world [] _).
  vm_compute. reflexivity.
Defined.

Lemma blocked_pass_wakes_near_due_time_witness :
  exists w',
    loop_body 1 (call_py 1) waiting_world [] = Blocked w' /\
    2300000 + 1 - 499999 <= clock w' <= 2300000 + 1 + 500000.
Proof.
  eexists. split; [vm_compute; reflexivity|].
  eapply (blocked_pass_wakes_near_due_time 1 (call_py 1) waiting_world [] _
            (mkEvent (mkCallback (BoundSetResult 0) [VNone]) 2300000) []);
    vm_compute; try reflexivity; discriminate.
Defined.

Lemma overdue_at_second_read_sleeps_a_day_witness :
  exists w',
    loop_body 1 (call_py 1) overdue_world [] = Blocked w' /\
    clock w' = 0 + 3 * 1 + 86399500000.
Proof.
  eexists. split; [vm_compute; reflexivity|].
  eapply (overdue_at_second_read_sleeps_a_day 1 (call_py 1) overdue_world [] _
            (mkEvent (mkCallback (BoundSetResult 0) [VNone]) 1) []);
    vm_compute; try reflexivity; discriminate.
Defined.


Lemma run_returns_only_none_witness :
  outcome (run 1 (call_py 1) BoundSend 100 [0; 1; 2]%nat demo_world) =
    Completed (RList [VNone; VNone; VNone; VNone; VNone; VNone]) /\
  Forall (fun v => v = VNone) [VNone; VNone; VNone; VNone; VNone; VNone] /\
  (length [VNone; VNone; VNone; VNone; VNone; VNone] <=
   length (executed (run 1 (call_py 1) BoundSend 100 [0; 1; 2]%nat demo_world)))%nat.
Proof.
  assert (H : outcome (run 1 (call_py 1) BoundSend 100 [0; 1; 2]%nat demo_world) =
              Completed (RList [VNone; VNone; VNone; VNone; VNone; VNone]))
    by (vm_compute; reflexivity).
  split; [exact H|].
  exact (run_returns_only_none 1 (call_py 1) nat BoundSend 100 [0; 1; 2]%nat demo_world
           [VNone; VNone; VNone; VNone; VNone; VNone] H).
Defined.

Lemma run_returns_with_registry_drained_witness :
  [0; 1; 2]%nat <> [] /\
  outcome (run 1 (call_py 1) BoundSend 100 [0; 1; 2]%nat demo_world) =
    Completed (RList [VNone; VNone; VNone; VNone; VNone; VNone]) /\
  registry (final (run 1 (call_py 1) BoundSend 100 [0; 1; 2]%nat demo_world)) = [].
Proof.
  assert (H : outcome (run 1 (call_py 1) BoundSend 100 [0; 1; 2]%nat demo_world) =
              Completed (RList [VNone; VNone; VNone; VNone; VNone; VNone]))
    by (vm_compute; reflexivity).
  assert (Hne : [0; 1; 2]%nat <> []) by discriminate.
  split; [exact Hne|]. split; [exact H|].
  exact (proj2 (run_returns_with_registry_drained 1 (call_py 1) nat BoundSend 100
                  [0; 1; 2]%nat demo_world _ Hne H)).
Defined.

Lemma calls_leave_other_futures_alone_witness :
  1%nat <> 0%nat /\
  futures (apply_calls 1 0 [CallSetResult (VInt 1); CallCancel]
             (create_future one_future).2) !! 1%nat =
  futures (create_future one_future).2 !! 1%nat.
Proof.
  split; [discriminate|].
  apply (calls_leave_other_futures_alone 1 0 [CallSetResult (VInt 1); CallCancel]
           (create_future one_future).2 1).
  discriminate.
Defined.

Lemma set_result_again_schedules_again_witness :
  futures armed_future !! 0%nat =
    Some (mkFuture [mkCallback (BoundSend 3) [VNone]; mkCallback (BoundSend 7) [VNone]]
                   SCHEDULED None) /\
  callback <$> registry (set_result 1 0 (VInt 2) (set_result 1 0 (VInt 1) armed_future)) =
    [mkCallback (BoundSend 3) [VNone]; mkCallback (BoundSend 7) [VNone];
     mkCallback (BoundSend 3) [VNone]; mkCallback (BoundSend 7) [VNone]].
Proof.
  split; [reflexivity|].
  rewrite (proj2 (set_result_again_schedules_again 1 0 (VInt 1) (VInt 2) armed_future
                    (mkFuture [mkCallback (BoundSend 3) [VNone];
                               mkCallback (BoundSend 7) [VNone]] SCHEDULED None)
                    eq_refl)).
  reflexivity.
Defined.

Lemma suspended_step_resumes_on_completion_witness :
  futures one_future !! 0%nat = Some (mkFuture [] SCHEDULED None) /\
  registry (set_result 1 0 (VInt 9)
              (settle (mkEvent (mkCallback (BoundSend 4) [VNone]) 0) (VFuture 0)
                      one_future []).1) =
    [mkEvent (mkCallback (BoundSend 4) [VNone]) 0].
Proof.
  split; [reflexivity|].
  apply (suspended_step_resumes_on_completion 1
           (mkEvent (mkCallback (BoundSend 4) [VNone]) 0) one_future [] 0
           (mkFuture [] SCHEDULED None) (VInt 9)).
  reflexivity.
Defined.

Lemma iter_suspends_iff_not_done_witness :
  futures one_future !! 0%nat = Some (mkFuture [] SCHEDULED None) /\
  ((exists v, __iter__ 0 one_future = Yielded v) <->
   done (mkFuture (Fn := PyFn) [] SCHEDULED None) = false).
Proof.
  split; [reflexivity|].
  apply (iter_suspends_iff_not_done 0 one_future (mkFuture [] SCHEDULED None)).
  reflexivity.
Defined.

Lemma sleep_is_lazy_then_suspends_witness :
  timedelta_ok 2 && datetime_ok (clock (startup 0) + 2 * 1000000) = true /\
  coro_send 1 (sleep 2 (VInt 7) (startup 0)).1 (sleep 2 (VInt 7) (startup 0)).2 =
    (Return (VFuture 0),
     mkWorld (mkLoop [mkEvent (mkCallback (BoundSetResult 0) [VInt 7]) 2000000])
             [mkFuture [] SCHEDULED None] 1 [SleepAwait 0]) /\
  timedelta_ok 1000000000000 &&
    datetime_ok (clock (startup 0) + 1000000000000 * 1000000) = false /\
  coro_send 1 (sleep 1000000000000 (VInt 7) (startup 0)).1
              (sleep 1000000000000 (VInt 7) (startup 0)).2 =
    (Raise, mkWorld (mkLoop []) [mkFuture [] SCHEDULED None] 1 [Exhausted]).
Proof.
  split; [reflexivity|].
  split.
  { apply (sleep_is_lazy_then_suspends 1 2 (VInt 7) (startup 0)). reflexivity. }
  split; [reflexivity|].
  apply (sleep_is_lazy_then_suspends 1 1000000000000 (VInt 7) (startup 0)). reflexivity.
Defined.

Lemma sleep_completes_with_its_result_witness :
  heap (sleep 2 (VInt 7) (startup 0)).2 !! 0%nat = Some (SleepEntry 2 (VInt 7)) /\
  timedelta_ok 2 && datetime_ok (clock (sleep 2 (VInt 7) (startup 0)).2 + 2 * 1000000) = true /\
  exists w1 w3 w4,
    coro_send 1 0 (sleep 2 (VInt 7) (startup 0)).2 = (Return (VFuture 0), w1) /\
    call_py 1 (BoundSetResult 0) [VInt 7]
      (settle (mkEvent (mkCallback (BoundSend 0) [VNone]) 0) (VFuture 0) w1 []).1
      = (Return VNone, w3) /\
    registry w3 =
      [mkEvent (mkCallback (BoundSetResult 0) [VInt 7]) 2000000;
       mkEvent (mkCallback (BoundSend 0) [VNone]) 1] /\
    call_py 1 (BoundSend 0) [VNone] w3 = (StopIteration (VInt 7), w4) /\
    status_of 0 w4 = Some DONE /\
    heap w4 !! 0%nat = Some Exhausted /\
    call_py 1 (BoundSend 0) [VNone] w4 = (StopIteration VNone, w4).
Proof.
  split; [reflexivity|]. split; [reflexivity|].
  apply (sleep_completes_with_its_result 1 0 2 (VInt 7) (sleep 2 (VInt 7) (startup 0)).2
           (mkEvent (mkCallback (BoundSend 0) [VNone]) 0) []); reflexivity.
Defined.

Lemma run_py_waits_for_every_sleep_witness :
  heap demo_world !! 0%nat = Some (SleepEntry 5 VNone) /\
  outcome (run_py 1 100 [0; 1; 2]%nat demo_world) =
    Completed (RList [VNone; VNone; VNone; VNone; VNone; VNone]) /\
  clock demo_world + 5 * 1000000 <= clock (final (run_py 1 100 [0; 1; 2]%nat demo_world)).
Proof.
  assert (H : outcome (run_py 1 100 [0; 1; 2]%nat demo_world) =
              Completed (RList [VNone; VNone; VNone; VNone; VNone; VNone]))
    by (vm_compute; reflexivity).
  assert (Hfr : heap demo_world !! 0%nat = Some (SleepEntry 5 VNone)) by reflexivity.
  assert (Hin : 0%nat ∈ [0; 1; 2]%nat) by left.
  split; [exact Hfr|]. split; [exact H|].
  exact (run_py_waits_for_every_sleep 1 100 [0; 1; 2]%nat demo_world
           [VNone; VNone; VNone; VNone; VNone; VNone] 0 5 VNone Hin Hfr H).
Defined.
